(** * go-simple-etcd-client: the directory client over an etcd keys API

    A shallow embedding of [etcdclient/etcdclient.go].  The client is a thin
    facade over the [client.KeysAPI] interface of the etcd client library:
    every operation sends requests to the store and translates the reply.
    The store itself is outside the repository, so the client is modelled
    over an arbitrary implementation of the interface, and the development
    records every round trip and every callback in a trace. *)

From Stdlib Require Import ZArith NArith Bool Ascii String Sorted.
From stdpp Require Import base option list strings gmap.

Local Open Scope string_scope.
Local Open Scope list_scope.

(** ** Data of the etcd client library used by the source *)

(** [client.Error]: the error body the store answers with. *)
Record Error := mkError {
  Code : Z;
  Message : string;
  Cause : string;
  ErrIndex : N
}.

(** A non-nil value of Go's [error] interface carries its dynamic type.  The
    source inspects it (the type switch in [shouldIgnoreError]), so the
    model keeps the struct type [client.Error] and the pointer type
    [*client.Error] apart; every other dynamic type (cluster errors,
    context errors, [fmt.Errorf] values) is [OtherError] with its text. *)
Inductive error :=
| ErrorValue (e : Error)
| ErrorPointer (e : Error)
| OtherError (msg : string).

(** [client.Node]; [Nodes] is the ordered list of children,
    [ModifiedIndex] the store index of the change that last wrote the node
    (its revision), [NodeTTL] (the library's field [TTL]) the seconds the
    node has left, 0 for a node that does not expire. *)
#[warnings="-register-all"]
Inductive Node := mkNode {
  Key : string;
  Dir : bool;
  Value : string;
  Nodes : list Node;
  ModifiedIndex : N;
  NodeTTL : Z
}.

(** [client.Response].  [Index] is the store index reported with the
    reply: the index the store stood at when it took the request up.  For
    a wait that is the index at which the wait began, and the change it
    delivers is the one of [ModifiedIndex] of the node. *)
Record Response := mkResponse {
  Action : string;
  RNode : Node;
  Index : N
}.

(** [client.PrevExistType]. *)
Inductive PrevExistType := PrevIgnore | PrevExist | PrevNoExist.

(** Option structs, with the fields the source sets; a field a struct
    literal leaves out has Go's zero value. *)
Record GetOptions := mkGetOptions { Sort : bool; GetRecursive : bool }.
Record SetOptions := mkSetOptions { TTL : Z; SetDir : bool; SetPrevExist : PrevExistType }.
Record DeleteOptions := mkDeleteOptions { DelDirFlag : bool; DelRecursive : bool }.
Record WatcherOptions := mkWatcherOptions { WatchRecursiveFlag : bool; AfterIndex : N }.

(** A [time.Duration] counts nanoseconds; the store is given a ttl in
    whole seconds, and none for a duration that is not positive. *)
Definition seconds (d : Z) : Z :=
  if Z.ltb 0 d then Z.div d 1000000000 else 0%Z.

(** The library returns a response pointer and an [error], exactly one of
    the two non-nil; a reply is therefore a sum. *)
Definition Reply : Type := Response + error.

(** [client.KeysAPI] (the methods the source calls) over a store state [S].
    A pointer to an option struct may be nil: [option].  [api_Next] stands
    for [api.Watcher(key, opts).Next(ctx)]. *)
Record KeysAPI (S : Type) := mkKeysAPI {
  api_Get : string -> option GetOptions -> S -> Reply * S;
  api_Set : string -> string -> option SetOptions -> S -> Reply * S;
  api_Delete : string -> option DeleteOptions -> S -> Reply * S;
  api_Next : string -> option WatcherOptions -> S -> Reply * S
}.
Arguments api_Get {S}.
Arguments api_Set {S}.
Arguments api_Delete {S}.
Arguments api_Next {S}.

(** ** Traces *)

Inductive Call :=
| CallGet (key : string) (opts : option GetOptions)
| CallSet (key value : string) (opts : option SetOptions)
| CallDelete (key : string) (opts : option DeleteOptions)
| CallNext (key : string) (opts : option WatcherOptions).

(** What a caller can observe of a run, in order: a request to the store
    with its reply, or an invocation of the [OnChangeCallback]. *)
Inductive Event :=
| Round (c : Call) (r : Reply)
| Changed (key newValue : string).

Definition is_round (e : Event) : bool :=
  match e with Round _ _ => true | Changed _ _ => false end.

(** Number of requests sent to the store in a trace. *)
Definition requests (t : list Event) : nat := length (List.filter is_round t).

(** ** The state monad of the client *)

Record World (S : Type) := mkWorld { store : S; trace : list Event }.
Arguments mkWorld {S}.
Arguments store {S}.
Arguments trace {S}.

Definition M (S A : Type) : Type := World S -> A * World S.

Definition ret {S A} (a : A) : M S A := fun w => (a, w).

Definition bind {S A B} (m : M S A) (k : A -> M S B) : M S B :=
  fun w => let (a, w') := m w in k a w'.

Notation "x <- m ;; k" := (bind m (fun x => k))
  (at level 100, m at next level, right associativity).
Notation "m ;;; k" := (bind m (fun _ => k))
  (at level 100, right associativity).

(** ** The client *)

Section Client.
Context {S : Type}.
(** The store handle held by [SimpleEtcdClient]. *)
Variable api : KeysAPI S.
(** [client.IsKeyNotFound] and [client.ErrorCodeEventIndexCleared], which
    belong to the library. *)
Variable IsKeyNotFound : error -> bool.
Variable ErrorCodeEventIndexCleared : Z.

Definition perform (c : Call) (s : S) : Reply * S :=
  match c with
  | CallGet key opts => api_Get api key opts s
  | CallSet key value opts => api_Set api key value opts s
  | CallDelete key opts => api_Delete api key opts s
  | CallNext key opts => api_Next api key opts s
  end.

(** One round trip, recorded in the trace. *)
Definition call (c : Call) : M S Reply :=
  fun w =>
    let (r, s') := perform c (store w) in
    (r, mkWorld s' (trace w ++ [Round c r])).

(** The callback, recorded in the trace. *)
Definition onChange (key newValue : string) : M S unit :=
  fun w => (tt, mkWorld (store w) (trace w ++ [Changed key newValue])).

(** Go's [error] result: [None] is nil. *)

Definition Del (key : string) : M S (option error) :=
  r <- call (CallDelete key None) ;;
  match r with
  | inr err => if IsKeyNotFound err then ret None else ret (Some err)
  | inl _ => ret None
  end.

Definition DelDir (key : string) : M S (option error) :=
  r <- call (CallDelete key (Some (mkDeleteOptions true true))) ;;
  match r with
  | inr err => if IsKeyNotFound err then ret None else ret (Some err)
  | inl _ => ret None
  end.

Definition Get (key : string) : M S (string * option error) :=
  r <- call (CallGet key None) ;;
  match r with
  | inr err => if IsKeyNotFound err then ret ("", None) else ret ("", Some err)
  | inl response => ret (Value (RNode response), None)
  end.

Definition Set_ (key value : string) : M S (option error) :=
  r <- call (CallSet key value None) ;;
  match r with
  | inr err => ret (Some err)
  | inl _ => ret None
  end.

Definition UpdateDirWithTTL (key : string) (ttl : Z) : M S (option error) :=
  r <- call (CallSet key "" (Some (mkSetOptions ttl true PrevExist))) ;;
  match r with
  | inr err => ret (Some err)
  | inl _ => ret None
  end.

(** [nodesToStringSlice]: for each node of the list, its key, then the
    keys of [nodesToStringSlice node.Nodes].  The recursion goes through
    the children of a node, so it is written on one node; the lemma
    [nodesToStringSlice_is_the_loop] gives it back as the two nested
    [for] loops of the source. *)
Fixpoint nodeKeys (node : Node) : list string :=
  Key node :: flat_map nodeKeys (Nodes node).

Definition nodesToStringSlice (nodes : list Node) : list string :=
  flat_map nodeKeys nodes.

Definition Ls (directory : string) : M S (list string * option error) :=
  r <- call (CallGet directory (Some (mkGetOptions true false))) ;;
  match r with
  | inr err => if IsKeyNotFound err then ret ([], None) else ret ([], Some err)
  | inl response => ret (nodesToStringSlice (Nodes (RNode response)), None)
  end.

Definition LsRecursive (directory : string) : M S (list string * option error) :=
  r <- call (CallGet directory (Some (mkGetOptions true true))) ;;
  match r with
  | inr err => if IsKeyNotFound err then ret ([], None) else ret ([], Some err)
  | inl response => ret (nodesToStringSlice (Nodes (RNode response)), None)
  end.

Definition refusal (directory : string) : error :=
  OtherError ("Refusing to overwrite key/value with a directory: " ++ directory).

Definition MkDir (directory : string) : M S (option error) :=
  r <- call (CallGet directory None) ;;
  match r with
  | inr err =>
      if negb (IsKeyNotFound err) then ret (Some err)
      else
        r' <- call (CallSet directory "" (Some (mkSetOptions 0 true PrevIgnore))) ;;
        match r' with
        | inr err' => ret (Some err')
        | inl _ => ret None
        end
  | inl results =>
      if negb (Dir (RNode results)) then ret (Some (refusal directory))
      else ret None
  end.

(** The type switch: only the case [*client.Error] looks at the code, every
    other dynamic type takes the default arm. *)
Definition shouldIgnoreError (err : error) : bool :=
  match err with
  | ErrorPointer e => Z.eqb (Code e) ErrorCodeEventIndexCleared
  | _ => false
  end.

(** [WatchRecursive]: the [for] loop, unrolled at most [fuel] times.
    [inl afterIndex] means the loop is still running and about to wait
    with that cursor; [inr err] is the value the function returned. *)
Fixpoint WatchRecursive_loop (fuel : nat) (directory : string) (afterIndex : N)
  : M S (N + option error) :=
  match fuel with
  | O => ret (inl afterIndex)
  | Datatypes.S fuel' =>
      r <- call (CallNext directory (Some (mkWatcherOptions true afterIndex))) ;;
      match r with
      | inr err =>
          if shouldIgnoreError err
          then WatchRecursive_loop fuel' directory afterIndex
          else ret (inr (Some err))
      | inl response =>
          onChange (Key (RNode response)) (Value (RNode response)) ;;;
          WatchRecursive_loop fuel' directory (Index response)
      end
  end.

Definition WatchRecursive (fuel : nat) (directory : string) : M S (N + option error) :=
  WatchRecursive_loop fuel directory 0%N.

End Client.

Arguments nodeKeys : simpl nomatch.

(** ** An in-memory store

    A reference implementation of the keys API, in the manner of the etcd
    v2 keyspace: a flat finite map from full keys to entries, with the
    directory tree read off the [/]-delimited keys.  It can be switched
    offline (every request then fails with a connectivity error), and its
    watch answers come from a queue of upcoming outcomes.  The client is
    run against it in the examples and witnesses below. *)
Module MemStore.

Definition ErrorCodeKeyNotFound : Z := 100.
Definition ErrorCodeNotFile : Z := 102.
Definition ErrorCodeNotDir : Z := 104.
Definition ErrorCodeNodeExist : Z := 105.
Definition ErrorCodeDirNotEmpty : Z := 108.
Definition ErrorCodeEventIndexCleared : Z := 401.

(** The library hands out its errors as [client.Error] values, and its
    [IsKeyNotFound] asserts that type. *)
Definition IsKeyNotFound (err : error) : bool :=
  match err with
  | ErrorValue e => Z.eqb (Code e) ErrorCodeKeyNotFound
  | _ => false
  end.

Inductive Entry := File (value : string) | Directory.

Definition is_file (e : option Entry) : bool :=
  match e with Some (File _) => true | _ => false end.

Record t := mk {
  entries : gmap string Entry;
  ttls : gmap string Z;
  stamps : gmap string N;
  index : N;
  online : bool;
  feed : list Reply
}.

Definition empty : t := mk ∅ ∅ ∅ 0 true [].

Definition unavailable : error :=
  OtherError "client: etcd cluster is unavailable or misconfigured".

Definition closed : error := OtherError "watch: connection closed".

Definition failure (code : Z) (message cause : string) (s : t) : Reply * t :=
  (inr (ErrorValue (mkError code message cause (index s))), s).

(** The text before the last [/] of a key. *)
Fixpoint dirname (key : string) : option string :=
  match key with
  | EmptyString => None
  | String c rest =>
      match dirname rest with
      | Some d => Some (String c d)
      | None => if Ascii.eqb c "/"%char then Some "" else None
      end
  end.

(** The proper ancestors of a key, nearest first, the root left out. *)
Fixpoint ancestors_aux (fuel : nat) (key : string) : list string :=
  match fuel with
  | O => []
  | Datatypes.S fuel' =>
      match dirname key with
      | Some d => if String.eqb d "" then [] else d :: ancestors_aux fuel' d
      | None => []
      end
  end.

Definition ancestors (key : string) : list string :=
  ancestors_aux (String.length key) key.

(** A file on the way to the key. *)
Definition blocked (s : t) (key : string) : bool :=
  existsb (fun a => is_file (entries s !! a)) (ancestors key).

Fixpoint insert_key (k : string) (l : list string) : list string :=
  match l with
  | [] => [k]
  | k' :: l' => if String.leb k k' then k :: l else k' :: insert_key k l'
  end.

Definition sort_keys (l : list string) : list string := foldr insert_key [] l.

(** The keys directly beneath a directory, in ascending order. *)
Definition kids (s : t) (key : string) : list string :=
  sort_keys
    (filter (fun k => bool_decide (dirname k = Some key))
            (map fst (map_to_list (entries s)))).

(** The node at a key, with [depth] levels of children. *)
Fixpoint subtree (depth : nat) (s : t) (key : string) : Node :=
  match entries s !! key with
  | Some (File v) =>
      mkNode key false v [] (default 0%N (stamps s !! key))
             (default 0%Z (ttls s !! key))
  | _ =>
      mkNode key true ""
        match depth with
        | O => []
        | Datatypes.S d => map (subtree d s) (kids s key)
        end
        (default 0%N (stamps s !! key)) (default 0%Z (ttls s !! key))
  end.

Definition get (key : string) (opts : option GetOptions) (s : t) : Reply * t :=
  if negb (online s) then (inr unavailable, s)
  else if blocked s key then failure ErrorCodeNotDir "Not a directory" key s
  else
    match entries s !! key with
    | None => failure ErrorCodeKeyNotFound "Key not found" key s
    | Some _ =>
        let depth :=
          match opts with
          | Some o => if GetRecursive o then Datatypes.S (size (entries s)) else 1%nat
          | None => 1%nat
          end in
        (inl (mkResponse "get" (subtree depth s key) (index s)), s)
    end.

Definition with_ancestors (key : string) (m : gmap string Entry) : gmap string Entry :=
  foldr (fun a m' => <[a := Directory]> m') m (ancestors key).

(** The ancestors a write creates are stamped with the index of the
    write; those that were there keep their stamp. *)
Definition stamp_ancestors (key : string) (i : N) (s : t) : gmap string N :=
  foldr (fun a m' => match entries s !! a with
                     | Some _ => m'
                     | None => <[a := i]> m'
                     end)
        (stamps s) (ancestors key).

Definition write (key : string) (e : Entry) (ttl : Z) (action : string) (s : t)
  : Reply * t :=
  let s' :=
    mk (<[key := e]> (with_ancestors key (entries s)))
       (if Z.ltb 0 ttl then <[key := seconds ttl]> (ttls s) else delete key (ttls s))
       (<[key := N.succ (index s)]> (stamp_ancestors key (N.succ (index s)) s))
       (N.succ (index s)) (online s) (feed s) in
  (inl (mkResponse action (subtree 0 s' key) (index s')), s').

Definition set (key value : string) (opts : option SetOptions) (s : t) : Reply * t :=
  let dir := match opts with Some o => SetDir o | None => false end in
  let prev := match opts with Some o => SetPrevExist o | None => PrevIgnore end in
  let ttl := match opts with Some o => TTL o | None => 0%Z end in
  if negb (online s) then (inr unavailable, s)
  else if blocked s key then failure ErrorCodeNotDir "Not a directory" key s
  else
    match entries s !! key, prev with
    | None, PrevExist => failure ErrorCodeKeyNotFound "Key not found" key s
    | Some _, PrevNoExist => failure ErrorCodeNodeExist "Key already exists" key s
    | Some Directory, PrevExist =>
        if dir then write key Directory ttl "update" s
        else failure ErrorCodeNotFile "Not a file" key s
    | Some Directory, PrevIgnore => failure ErrorCodeNotFile "Not a file" key s
    | Some (File _), PrevExist => write key (File value) ttl "update" s
    | _, _ => write key (if dir then Directory else File value) ttl "set" s
    end.

(** Is [k] strictly beneath [key]? *)
Definition beneath (key k : string) : bool := String.prefix (key ++ "/") k.

Definition remove (key : string) (s : t) : Reply * t :=
  let gone := subtree 0 s key in
  let keep := fun (p : string * Entry) => negb (beneath key (fst p)) in
  let s' :=
    mk (filter (fun p => keep p = true) (delete key (entries s)))
       (delete key (ttls s)) (delete key (stamps s))
       (N.succ (index s)) (online s) (feed s) in
  (inl (mkResponse "delete" gone (index s')), s').

Definition delete_ (key : string) (opts : option DeleteOptions) (s : t) : Reply * t :=
  let dir := match opts with Some o => DelDirFlag o | None => false end in
  let recursive := match opts with Some o => DelRecursive o | None => false end in
  if negb (online s) then (inr unavailable, s)
  else if blocked s key then failure ErrorCodeNotDir "Not a directory" key s
  else
    match entries s !! key with
    | None => failure ErrorCodeKeyNotFound "Key not found" key s
    | Some (File _) => remove key s
    | Some Directory =>
        if negb (dir || recursive) then failure ErrorCodeNotFile "Not a file" key s
        else if negb recursive && negb (bool_decide (kids s key = []))
        then failure ErrorCodeDirNotEmpty "Directory not empty" key s
        else remove key s
    end.

(** An upcoming event the watcher at cursor [after] on [dir] skips: one
    of a change at or before the cursor, or one outside the directory. *)
Definition skipped (dir : string) (after : N) (r : Reply) : bool :=
  match r with
  | inl resp =>
      N.leb (ModifiedIndex (RNode resp)) after
      || negb (String.eqb (Key (RNode resp)) dir || beneath dir (Key (RNode resp)))
  | inr _ => false
  end.

Fixpoint pending (dir : string) (after : N) (l : list Reply) : list Reply :=
  match l with
  | [] => []
  | r :: l' => if skipped dir after r then pending dir after l' else l
  end.

Definition next (dir : string) (opts : option WatcherOptions) (s : t) : Reply * t :=
  let after := match opts with Some o => AfterIndex o | None => 0%N end in
  if negb (online s) then (inr unavailable, s)
  else
    match pending dir after (feed s) with
    | [] => (inr closed, mk (entries s) (ttls s) (stamps s) (index s) (online s) [])
    | r :: rest => (r, mk (entries s) (ttls s) (stamps s) (index s) (online s) rest)
    end.

Definition api : KeysAPI t := mkKeysAPI t get set delete_ next.

(** A world over the store, with an empty trace. *)
Definition world (s : t) : World t := mkWorld s [].

(** The client over this store. *)
Definition Get := Get api IsKeyNotFound.
Definition Set_ := Set_ api.
Definition Del := Del api IsKeyNotFound.
Definition DelDir := DelDir api IsKeyNotFound.
Definition UpdateDirWithTTL := UpdateDirWithTTL api.
Definition Ls := Ls api IsKeyNotFound.
Definition LsRecursive := LsRecursive api IsKeyNotFound.
Definition MkDir := MkDir api IsKeyNotFound.
Definition WatchRecursive := WatchRecursive api ErrorCodeEventIndexCleared.

(** Run a client call for its effect on the store. *)
Definition after {A} (m : M t A) (s : t) : t := store (snd (m (world s))).

(** A store with the leaves [/a/b/c], [/a/b-x] and [/a/d]. *)
Definition sample : t :=
  after (Set_ "/a/d" "3") (after (Set_ "/a/b-x" "2") (after (Set_ "/a/b/c" "1") empty)).

(** The same store, out of reach. *)
Definition unreachable : t :=
  mk (entries sample) (ttls sample) (stamps sample) (index sample) false [].

(** The answer to a wait that began at store index [began] and is ended
    by the change of [key] to [value] at [revision]. *)
Definition answer (key value : string) (revision began : N) : Reply :=
  inl (mkResponse "set" (mkNode key false value [] revision 0) began).

(** The answer with a change the store already holds: the wait is ended at
    once, at the index of the change. *)
Definition change (key value : string) (revision : N) : Reply :=
  answer key value revision revision.

Definition history_expired : Error :=
  mkError ErrorCodeEventIndexCleared
    "The event in requested index is outdated and cleared"
    "the requested history has been cleared" 2007.

(** The sample store with watch outcomes to come. *)
Definition watched (outcomes : list Reply) : t :=
  mk (entries sample) (ttls sample) (stamps sample) (index sample) true outcomes.

End MemStore.

(** ** Notions the statements are written in *)

Section Replies.
Context {S : Type}.
Variable api : KeysAPI S.
Variable IsKeyNotFound : error -> bool.

(** The store answered that there is nothing at the key. *)
Definition not_found (r : Reply) : bool :=
  match r with
  | inr err => IsKeyNotFound err
  | inl _ => false
  end.

(** The error of a reply, nil for a success. *)
Definition reply_error (r : Reply) : option error :=
  match r with
  | inr err => Some err
  | inl _ => None
  end.

(** The trace a run adds to the one it started with. *)
Definition extends {A} (m : M S A) (w : World S) (t : list Event) : Prop :=
  trace (snd (m w)) = trace w ++ t.

(** The run sends [n] requests to the store. *)
Definition sends {A} (m : M S A) (w : World S) (n : nat) : Prop :=
  requests (trace (snd (m w))) = (requests (trace w) + n)%nat.


Definition is_dir_at (s : S) (key : string) : Prop :=
  exists resp, fst (api_Get api key None s) = inl resp /\ Dir (RNode resp) = true.


(** *** Store laws the round-trip statements rest on *)

(** A get leaves the store as it was. *)
Definition get_is_read_only : Prop :=
  forall key opts s, snd (api_Get api key opts s) = s.

(** A leaf write with no options that succeeded is read back by a plain
    get of the same key. *)
Definition reads_back_writes : Prop :=
  forall key value s resp s',
    api_Set api key value None s = (inl resp, s') ->
    exists resp', fst (api_Get api key None s') = inl resp'
                  /\ Value (RNode resp') = value.

(** A plain get finds the key as a directory with [ttl] seconds left. *)
Definition expires_at (s : S) (key : string) (ttl : Z) : Prop :=
  exists resp, fst (api_Get api key None s) = inl resp
               /\ Dir (RNode resp) = true /\ NodeTTL (RNode resp) = ttl.

(** The write of a directory with a ttl that demands a previous node
    succeeds on a directory, and leaves it with that time to live. *)
Definition refreshes_directories : Prop :=
  forall key ttl s,
    is_dir_at s key ->
    exists resp s',
      api_Set api key "" (Some (mkSetOptions ttl true PrevExist)) s = (inl resp, s')
      /\ expires_at s' key (seconds ttl).

(** A write that demands a previous node fails where the store reports
    the key as not found. *)
Definition enforces_prev_exist : Prop :=
  forall key value opts s,
    SetPrevExist opts = PrevExist ->
    not_found (fst (api_Get api key None s)) = true ->
    exists err, fst (api_Set api key value (Some opts) s) = inr err.

End Replies.

(** *** Listings *)

(** Depth-first pre-order of a list of sibling nodes, in the words of the
    specification: a node's key, then the whole enumeration of its
    children, then the enumeration of its next siblings. *)
Inductive Preorder : list Node -> list string -> Prop :=
| Preorder_nil : Preorder [] []
| Preorder_cons node siblings below after :
    Preorder (Nodes node) below ->
    Preorder siblings after ->
    Preorder (node :: siblings) (Key node :: below ++ after).

(** The nodes at any depth beneath a list of sibling nodes. *)
Inductive Descendant : list Node -> Node -> Prop :=
| Descendant_here node siblings :
    In node siblings -> Descendant siblings node
| Descendant_below parent node siblings :
    In parent siblings -> Descendant (Nodes parent) node -> Descendant siblings node.

(** The levels of a tree: the top list, and the children of each node. *)
Inductive Level (top : list Node) : list Node -> Prop :=
| Level_top : Level top top
| Level_children node : Descendant top node -> Level top (Nodes node).

(** Ascending keys, in Go's string order. *)
Fixpoint ascending (keys : list string) : bool :=
  match keys with
  | k :: (k' :: _) as rest => String.leb k k' && ascending rest
  | _ => true
  end.

(** Every level of the tree has its keys in ascending order: what a get
    with [Sort] asks of the store. *)
Fixpoint node_sorted (node : Node) : bool :=
  ascending (map Key (Nodes node)) && forallb node_sorted (Nodes node).

Definition levels_sorted (nodes : list Node) : bool :=
  ascending (map Key nodes) && forallb node_sorted nodes.

(** *** Watching *)

(** The store index reported with the response of a watch round that
    delivered an event: the field [Index] the loop takes its cursor
    from. *)
Definition index_of (e : Event) : option N :=
  match e with
  | Round (CallNext _ _) (inl resp) => Some (Index resp)
  | _ => None
  end.

(** The revision of the event a watch round delivered: the modification
    index of the changed node. *)
Definition revision_of (e : Event) : option N :=
  match e with
  | Round (CallNext _ _) (inl resp) => Some (ModifiedIndex (RNode resp))
  | _ => None
  end.

(** The indices reported with the delivered responses of a trace, and the
    revisions of the delivered events, both in order. *)
Definition reported (t : list Event) : list N := omap index_of t.

Definition delivered (t : list Event) : list N := omap revision_of t.

(** The cursor the loop holds after a trace: the index reported with the
    last delivered response, and the cursor the loop started with while
    nothing was delivered; the loop of [WatchRecursive] starts with 0. *)
Definition cursor_from (cursor : N) (t : list Event) : N :=
  default cursor (last (reported t)).

Definition cursor_at (t : list Event) : N := cursor_from 0%N t.

Definition watch_call (directory : string) (afterIndex : N) : Call :=
  CallNext directory (Some (mkWatcherOptions true afterIndex)).

Section Watching.
Variable ErrorCodeEventIndexCleared : Z.
Variable directory : string.

(** The traces of the watch loop started with a cursor, with what the
    loop has come to: still waiting with a cursor, or returned. *)
Inductive Watching : N -> list Event -> N + option error -> Prop :=
| Watching_waits cursor : Watching cursor [] (inl cursor)
| Watching_event cursor resp t out :
    Watching (Index resp) t out ->
    Watching cursor
      (Round (watch_call directory cursor) (inl resp)
         :: Changed (Key (RNode resp)) (Value (RNode resp)) :: t) out
| Watching_retry cursor err t out :
    shouldIgnoreError ErrorCodeEventIndexCleared err = true ->
    Watching cursor t out ->
    Watching cursor (Round (watch_call directory cursor) (inr err) :: t) out
| Watching_fails cursor err :
    shouldIgnoreError ErrorCodeEventIndexCleared err = false ->
    Watching cursor [Round (watch_call directory cursor) (inr err)] (inr (Some err)).
End Watching.

(** *** Further notions *)

(** The events a run adds to the trace it started with. *)
Definition added {S A} (m : M S A) (w : World S) : list Event :=
  drop (length (trace w)) (trace (snd (m w))).

(** The number of nodes of a tree, directories and leaves alike. *)
Fixpoint node_count (node : Node) : nat :=
  1 + list_sum (map node_count (Nodes node)).

Definition forest_count (nodes : list Node) : nat :=
  list_sum (map node_count nodes).

(** The arguments of a callback invocation, and the key and value of the
    event a watch round delivered. *)
Definition callback_of (e : Event) : option (string * string) :=
  match e with
  | Changed key newValue => Some (key, newValue)
  | Round _ _ => None
  end.

Definition event_of (e : Event) : option (string * string) :=
  match e with
  | Round (CallNext _ _) (inl resp) => Some (Key (RNode resp), Value (RNode resp))
  | _ => None
  end.

Definition is_get (e : Event) : bool :=
  match e with
  | Round (CallGet _ _) _ => true
  | _ => false
  end.

Section Earlier.
Context {S : Type}.
Variable api : KeysAPI S.
Variable IsKeyNotFound : error -> bool.

(** [MkDir] as the version of the client before the watch was added has
    it: one write with [SetOptions{Dir: true}], the other fields at their
    zero values ([PrevIgnore] is the empty string of the library). *)
Definition MkDir_earlier (directory : string) : M S (option error) :=
  r <- call api (CallSet directory "" (Some (mkSetOptions 0 true PrevIgnore))) ;;
  match r with
  | inr err => ret (Some err)
  | inl _ => ret None
  end.

(** After a delete that succeeded, a plain get reports the key as not
    found. *)
Definition deletes_for_good : Prop :=
  forall key opts s resp s',
    api_Delete api key opts s = (inl resp, s') ->
    not_found IsKeyNotFound (fst (api_Get api key None s')) = true.

(** A delete that reports not found changes nothing, and a plain get
    reports the same. *)
Definition not_found_agrees : Prop :=
  forall key opts s,
    not_found IsKeyNotFound (fst (api_Delete api key opts s)) = true ->
    snd (api_Delete api key opts s) = s /\
    not_found IsKeyNotFound (fst (api_Get api key None s)) = true.

End Earlier.

(** ** Proofs *)

Lemma call_run {S} (api : KeysAPI S) (c : Call) (w : World S) :
  call api c w =
    (fst (perform api c (store w)),
     mkWorld (snd (perform api c (store w)))
             (trace w ++ [Round c (fst (perform api c (store w)))])).
Proof. unfold call. destruct (perform api c (store w)); reflexivity. Qed.

Ltac run :=
  unfold bind; rewrite ?call_run; cbn [fst snd store trace perform ret].

(** *** Flattening a node tree *)

Lemma forest_ind (P : list Node -> Prop) :
  P [] ->
  (forall node siblings, P (Nodes node) -> P siblings -> P (node :: siblings)) ->
  forall nodes, P nodes.
Proof.
  intros Hnil Hcons.
  refine (
    let fix below (n : Node) : P (Nodes n) :=
      match n with
      | mkNode _ _ _ ns _ _ =>
          (fix level (l : list Node) : P l :=
             match l with
             | [] => Hnil
             | m :: l' => Hcons m l' (below m) (level l')
             end) ns
      end in
    fix level (l : list Node) : P l :=
      match l with
      | [] => Hnil
      | m :: l' => Hcons m l' (below m) (level l')
      end).
Qed.

Lemma nodesToStringSlice_cons (node : Node) (siblings : list Node) :
  nodesToStringSlice (node :: siblings) =
    Key node :: nodesToStringSlice (Nodes node) ++ nodesToStringSlice siblings.
Proof. destruct node. reflexivity. Qed.

Lemma nodesToStringSlice_app (l1 l2 : list Node) :
  nodesToStringSlice (l1 ++ l2) = nodesToStringSlice l1 ++ nodesToStringSlice l2.
Proof. apply flat_map_app. Qed.

Lemma append_each (keys more : list string) :
  fold_left (fun acc key => acc ++ [key]) more keys = keys ++ more.
Proof.
  revert keys. induction more as [| k more IH]; intros keys; cbn.
  - symmetry. apply app_nil_r.
  - rewrite IH, <- app_assoc. reflexivity.
Qed.

(** The function is the loop of the source: each node appends its key to
    [keys], then every key of the recursive call on its children. *)
Lemma nodesToStringSlice_is_the_loop (nodes : list Node) :
  nodesToStringSlice nodes =
    fold_left
      (fun keys node =>
         fold_left (fun keys key => keys ++ [key])
                   (nodesToStringSlice (Nodes node)) (keys ++ [Key node]))
      nodes [].
Proof.
  enough (forall keys,
    fold_left
      (fun keys node =>
         fold_left (fun keys key => keys ++ [key])
                   (nodesToStringSlice (Nodes node)) (keys ++ [Key node]))
      nodes keys = keys ++ nodesToStringSlice nodes) as H
    by (rewrite H; reflexivity).
  induction nodes as [| node siblings IH]; intros keys; cbn [fold_left].
  - symmetry. apply app_nil_r.
  - rewrite IH, append_each, nodesToStringSlice_cons, <- !app_assoc.
    reflexivity.
Qed.

Lemma nodesToStringSlice_Preorder (nodes : list Node) :
  Preorder nodes (nodesToStringSlice nodes).
Proof.
  induction nodes as [| node siblings IHbelow IHafter] using forest_ind.
  - constructor.
  - rewrite nodesToStringSlice_cons. constructor; assumption.
Qed.

Lemma Preorder_unique (nodes : list Node) (keys keys' : list string) :
  Preorder nodes keys -> Preorder nodes keys' -> keys = keys'.
Proof.
  intros H. revert keys'.
  induction H as [| node siblings below after _ IHb _ IHa]; intros keys' H';
    inversion H'; subst.
  - reflexivity.
  - f_equal. f_equal; auto.
Qed.

(** A descendant's key is followed at once by the enumeration of its own
    subtree. *)
Lemma Descendant_block (nodes : list Node) (node : Node) :
  Descendant nodes node ->
  exists before after,
    nodesToStringSlice nodes =
      before ++ Key node :: nodesToStringSlice (Nodes node) ++ after.
Proof.
  induction 1 as [node siblings Hin | parent node siblings Hin _ IH].
  - apply in_split in Hin as (l1 & l2 & ->).
    rewrite nodesToStringSlice_app, nodesToStringSlice_cons. eauto.
  - apply in_split in Hin as (l1 & l2 & ->).
    destruct IH as (before & after & IH).
    rewrite nodesToStringSlice_app, nodesToStringSlice_cons, IH.
    exists (nodesToStringSlice l1 ++ Key parent :: before),
           (after ++ nodesToStringSlice l2).
    rewrite <- !app_assoc. cbn. rewrite <- !app_assoc. reflexivity.
Qed.

Lemma Descendant_cons (node other : Node) (siblings : list Node) :
  Descendant siblings node -> Descendant (other :: siblings) node.
Proof.
  induction 1 as [node siblings Hin | parent node siblings Hin Hd _].
  - apply Descendant_here. right. assumption.
  - eapply Descendant_below; [right; eassumption | assumption].
Qed.

Lemma keys_are_descendants (nodes : list Node) (key : string) :
  In key (nodesToStringSlice nodes) <->
  exists node, Descendant nodes node /\ Key node = key.
Proof.
  split.
  - revert key.
    induction nodes as [| node siblings IHbelow IHafter] using forest_ind;
      intros key Hin.
    + destruct Hin.
    + rewrite nodesToStringSlice_cons in Hin.
      destruct Hin as [<- | Hin].
      * exists node. split; [| reflexivity]. apply Descendant_here. left. reflexivity.
      * apply in_app_or in Hin as [Hin | Hin].
        -- destruct (IHbelow _ Hin) as (n & Hd & <-).
           exists n. split; [| reflexivity].
           eapply Descendant_below; [left; reflexivity | assumption].
        -- destruct (IHafter _ Hin) as (n & Hd & <-).
           exists n. split; [| reflexivity]. apply Descendant_cons. assumption.
  - intros (node & Hd & <-).
    destruct (Descendant_block _ _ Hd) as (before & after & ->).
    apply in_or_app. right. left. reflexivity.
Qed.

Lemma level_keys_in_order (nodes : list Node) :
  sublist (map Key nodes) (nodesToStringSlice nodes).
Proof.
  induction nodes as [| node siblings IH]; cbn [map].
  - constructor.
  - rewrite nodesToStringSlice_cons. apply sublist_skip.
    apply sublist_inserts_l. assumption.
Qed.

Lemma node_sorted_unfold (node : Node) :
  node_sorted node =
    ascending (map Key (Nodes node)) && forallb node_sorted (Nodes node).
Proof. destruct node. reflexivity. Qed.

Lemma sorted_Descendant (nodes : list Node) (node : Node) :
  forallb node_sorted nodes = true ->
  Descendant nodes node -> node_sorted node = true.
Proof.
  intros Hs Hd. induction Hd as [node siblings Hin | parent node siblings Hin _ IH].
  - rewrite forallb_forall in Hs. auto.
  - rewrite forallb_forall in Hs. specialize (Hs _ Hin).
    rewrite node_sorted_unfold in Hs.
    apply andb_true_iff in Hs as [_ Hs]. auto.
Qed.

(** In a tree sorted at every level, the keys of each level are in
    ascending order, and the enumeration keeps them in that order. *)
Lemma levels_stay_sorted (top level : list Node) :
  levels_sorted top = true ->
  Level top level ->
  ascending (map Key level) = true /\
  sublist (map Key level) (nodesToStringSlice top).
Proof.
  unfold levels_sorted. intros Hs Hl.
  apply andb_true_iff in Hs as [Htop Hs].
  destruct Hl as [| node Hd].
  - split; [assumption | apply level_keys_in_order].
  - split.
    + pose proof (sorted_Descendant _ _ Hs Hd) as Hn.
      rewrite node_sorted_unfold in Hn.
      apply andb_true_iff in Hn as [Hn _]. assumption.
    + destruct (Descendant_block _ _ Hd) as (before & after & ->).
      apply sublist_inserts_l. apply sublist_cons_r. left.
      apply sublist_inserts_r. apply level_keys_in_order.
Qed.

(** *** The watch loop *)

Section WatchLoop.
Context {S : Type}.
Variable api : KeysAPI S.
Variable ErrorCodeEventIndexCleared : Z.
Variable directory : string.

Lemma default_last_cons (cursor x : N) (l : list N) :
  default cursor (last (x :: l)) = default x (last l).
Proof. rewrite last_cons. destruct (last l); reflexivity. Qed.

Lemma cursor_from_event cursor call resp t :
  cursor_from cursor (Round (watch_call directory call) (inl resp) :: t) =
    cursor_from (Index resp) t.
Proof.
  unfold cursor_from, reported. cbn. apply default_last_cons.
Qed.

Lemma cursor_from_changed cursor key value t :
  cursor_from cursor (Changed key value :: t) = cursor_from cursor t.
Proof. reflexivity. Qed.

Lemma cursor_from_error cursor call err t :
  cursor_from cursor (Round call (inr err) :: t) = cursor_from cursor t.
Proof. unfold cursor_from, reported. destruct call; reflexivity. Qed.

(** Every run of the loop leaves a trace of the loop. *)
Lemma loop_Watching (fuel : nat) (cursor : N) (w : World S) :
  exists t,
    trace (snd (WatchRecursive_loop api ErrorCodeEventIndexCleared fuel directory cursor w)) = trace w ++ t /\
    Watching ErrorCodeEventIndexCleared directory cursor t (fst (WatchRecursive_loop api ErrorCodeEventIndexCleared fuel directory cursor w)).
Proof.
  revert cursor w. induction fuel as [| fuel IH]; intros cursor w.
  - exists []. cbn. rewrite app_nil_r. split; [reflexivity | constructor].
  - cbn [WatchRecursive_loop]. run.
    destruct (fst (api_Next api directory _ (store w))) as [resp | err] eqn:E.
    + unfold onChange. cbn [fst snd store trace].
      match goal with |- context [WatchRecursive_loop _ _ fuel directory ?c ?v] =>
        destruct (IH c v) as (t & Ht & Hw) end.
      cbn [trace] in Ht.
      eexists. split.
      * rewrite Ht, <- !app_assoc. reflexivity.
      * cbn. apply Watching_event. exact Hw.
    + destruct (shouldIgnoreError ErrorCodeEventIndexCleared err) eqn:Hi.
      * match goal with |- context [WatchRecursive_loop _ _ fuel directory ?c ?v] =>
          destruct (IH c v) as (t & Ht & Hw) end.
        cbn [trace] in Ht.
        eexists. split.
        -- rewrite Ht, <- !app_assoc. reflexivity.
        -- cbn. apply Watching_retry; assumption.
      * cbn. eexists. split; [reflexivity |].
        apply Watching_fails. assumption.
Qed.

(** Every wait carries the cursor: the index reported with the last
    response delivered before it. *)
Lemma Watching_waits_at_cursor cursor t out :
  Watching ErrorCodeEventIndexCleared directory cursor t out ->
  forall pre call r post,
    t = pre ++ Round call r :: post ->
    call = watch_call directory (cursor_from cursor pre).
Proof.
  induction 1 as [cursor | cursor resp t out _ IH | cursor err t out Hi _ IH
                 | cursor err Hi]; intros pre call r post E.
  - destruct pre; discriminate.
  - destruct pre as [| e pre]; cbn in E.
    + injection E as <- _ _. reflexivity.
    + injection E as <- E. destruct pre as [| e' pre]; cbn in E.
      * discriminate.
      * injection E as <- E.
        rewrite cursor_from_event, cursor_from_changed. eauto.
  - destruct pre as [| e pre]; cbn in E.
    + injection E as <- _ _. reflexivity.
    + injection E as <- E. rewrite cursor_from_error. eauto.
  - destruct pre as [| e pre]; cbn in E.
    + injection E as <- _. reflexivity.
    + injection E as _ E. destruct pre; discriminate.
Qed.

(** A loop that is still running holds the cursor of its trace. *)
Lemma Watching_holds_cursor cursor t cursor' :
  Watching ErrorCodeEventIndexCleared directory cursor t (inl cursor') -> cursor' = cursor_from cursor t.
Proof.
  remember (inl cursor') as out eqn:E.
  induction 1 as [cursor | cursor resp t out _ IH | cursor err t out Hi _ IH
                 | cursor err Hi].
  - injection E as <-. reflexivity.
  - rewrite cursor_from_event, cursor_from_changed. auto.
  - rewrite cursor_from_error. auto.
  - discriminate.
Qed.

(** A delivered event is handed to the callback at once, and the wait
    that comes next carries the index reported with its response. *)
Lemma Watching_event_then_callback cursor t out :
  Watching ErrorCodeEventIndexCleared directory cursor t out ->
  forall pre call resp post,
    t = pre ++ Round call (inl resp) :: post ->
    exists post',
      post = Changed (Key (RNode resp)) (Value (RNode resp)) :: post' /\
      forall call' r' post'',
        post' = Round call' r' :: post'' ->
        call' = watch_call directory (Index resp).
Proof.
  induction 1 as [cursor | cursor resp t out Hw IH | cursor err t out Hi _ IH
                 | cursor err Hi]; intros pre call resp' post E.
  - destruct pre; discriminate.
  - destruct pre as [| e pre]; cbn in E.
    + injection E as _ <- <-. eexists. split; [reflexivity |].
      intros call' r' post'' ->.
      apply (Watching_waits_at_cursor _ _ _ Hw [] call' r' post'' eq_refl).
    + injection E as _ E. destruct pre as [| e' pre]; cbn in E.
      * discriminate.
      * injection E as _ E. eauto.
  - destruct pre as [| e pre]; cbn in E.
    + discriminate.
    + injection E as _ E. eauto.
  - destruct pre as [| e pre]; cbn in E.
    + discriminate.
    + injection E as _ E. destruct pre; discriminate.
Qed.

(** The loop returns nothing but an error it does not ignore, as the
    store gave it in the last round. *)
Lemma Watching_returns_error cursor t r :
  Watching ErrorCodeEventIndexCleared directory cursor t (inr r) ->
  exists err cursor',
    r = Some err /\
    shouldIgnoreError ErrorCodeEventIndexCleared err = false /\
    last t = Some (Round (watch_call directory cursor') (inr err)).
Proof.
  remember (inr r) as out eqn:E.
  induction 1 as [cursor | cursor resp t out Hw IH | cursor err t out Hi Hw IH
                 | cursor err Hi].
  - discriminate.
  - destruct (IH E) as (err & c & -> & Hi & Hl).
    exists err, c. repeat split; try assumption.
    destruct t; [discriminate | exact Hl].
  - destruct (IH E) as (err' & c & -> & Hi' & Hl).
    exists err', c. repeat split; try assumption.
    destruct t; [discriminate | exact Hl].
  - injection E as <-. exists err, cursor. auto.
Qed.

(** [WatchRecursive] returns nothing but a non-nil error that
    [shouldIgnoreError] does not ignore, the one the store gave in the
    last round. *)
Lemma WatchRecursive_returns_only_errors (fuel : nat) (w : World S) r :
  fst (WatchRecursive api ErrorCodeEventIndexCleared fuel directory w) = inr r ->
  exists err cursor,
    r = Some err /\
    shouldIgnoreError ErrorCodeEventIndexCleared err = false /\
    last (trace (snd (WatchRecursive api ErrorCodeEventIndexCleared
                        fuel directory w)))
      = Some (Round (watch_call directory cursor) (inr err)).
Proof.
  unfold WatchRecursive. intros E.
  destruct (loop_Watching fuel 0%N w) as (t & Ht & Hw).
  rewrite E in Hw.
  destruct (Watching_returns_error _ _ _ Hw) as (err & c & -> & Hi & Hl).
  exists err, c. repeat split; try assumption.
  rewrite Ht. destruct t as [| e t]; [discriminate |].
  rewrite last_app, Hl. reflexivity.
Qed.

(** An error of the struct type is never ignored, whatever its code. *)
Lemma shouldIgnoreError_value (e : Error) :
  shouldIgnoreError ErrorCodeEventIndexCleared (ErrorValue e) = false.
Proof. reflexivity. Qed.

Lemma shouldIgnoreError_pointer (e : Error) :
  shouldIgnoreError ErrorCodeEventIndexCleared (ErrorPointer e) = true <->
  Code e = ErrorCodeEventIndexCleared.
Proof. cbn. apply Z.eqb_eq. Qed.

End WatchLoop.

(** *** The in-memory store obeys the store laws *)

Lemma MemStore_get_read_only : get_is_read_only MemStore.api.
Proof.
  intros key opts s. cbn. unfold MemStore.get, MemStore.failure.
  destruct (negb (MemStore.online s)); [reflexivity |].
  destruct (MemStore.blocked s key); [reflexivity |].
  destruct (MemStore.entries s !! key); reflexivity.
Qed.

Lemma MemStore_dirname_shorter (key d : string) :
  MemStore.dirname key = Some d -> (String.length d < String.length key)%nat.
Proof.
  revert d. induction key as [| c key IH]; intros d; cbn.
  - discriminate.
  - destruct (MemStore.dirname key) as [d' |].
    + intros [= <-]. cbn. specialize (IH d' eq_refl). lia.
    + destruct (Ascii.eqb c "/"); intros [= <-]. cbn. lia.
Qed.

Lemma MemStore_ancestors_shorter (fuel : nat) (key a : string) :
  In a (MemStore.ancestors_aux fuel key) ->
  (String.length a < String.length key)%nat.
Proof.
  revert key. induction fuel as [| fuel IH]; intros key; cbn.
  - intros [].
  - destruct (MemStore.dirname key) as [d |] eqn:E; [| intros []].
    apply MemStore_dirname_shorter in E.
    destruct (String.eqb d ""); [intros [] |].
    intros [<- | H]; [assumption |].
    specialize (IH _ H). lia.
Qed.

Lemma MemStore_with_ancestors_lookup (key a : string)
    (m : gmap string MemStore.Entry) :
  In a (MemStore.ancestors key) ->
  MemStore.with_ancestors key m !! a = Some MemStore.Directory.
Proof.
  unfold MemStore.with_ancestors.
  induction (MemStore.ancestors key) as [| b l IH]; cbn.
  - intros [].
  - intros [-> | H].
    + apply lookup_insert_eq.
    + destruct (decide (b = a)) as [-> | Hne].
      * apply lookup_insert_eq.
      * rewrite lookup_insert_ne by assumption. auto.
Qed.

(** A write leaves the way to its key free of files. *)
Lemma MemStore_write_unblocked
    (key : string) (e : MemStore.Entry) (ttl : Z) (action : string)
    (s : MemStore.t) :
  MemStore.blocked (snd (MemStore.write key e ttl action s)) key = false.
Proof.
  unfold MemStore.blocked. cbn [MemStore.write snd MemStore.entries].
  apply not_true_is_false. intros H.
  apply existsb_exists in H as (a & Hin & Hf).
  assert (a <> key) as Hne.
  { intros ->. apply MemStore_ancestors_shorter in Hin. lia. }
  rewrite lookup_insert_ne in Hf by congruence.
  rewrite (MemStore_with_ancestors_lookup _ _ _ Hin) in Hf. discriminate.
Qed.

Lemma MemStore_get_written_file
    (key value : string) (ttl : Z) (action : string) (s : MemStore.t) :
  MemStore.online s = true ->
  exists resp,
    fst (MemStore.get key None
           (snd (MemStore.write key (MemStore.File value) ttl action s)))
      = inl resp
    /\ Value (RNode resp) = value.
Proof.
  intros Hon. unfold MemStore.get.
  rewrite MemStore_write_unblocked.
  cbn [MemStore.write snd MemStore.online MemStore.entries MemStore.subtree].
  rewrite Hon, lookup_insert_eq. cbn.
  eexists. split; [reflexivity |]. cbn. reflexivity.
Qed.

Lemma MemStore_reads_back_writes : reads_back_writes MemStore.api.
Proof.
  intros key value s resp s'. cbn. unfold MemStore.set.
  destruct (MemStore.online s) eqn:Hon; cbn [negb]; [| discriminate].
  destruct (MemStore.blocked s key); [discriminate |].
  destruct (MemStore.entries s !! key) as [[v |] |]; try discriminate.
  all: intros E;
    destruct (MemStore_get_written_file key value 0 "set" s Hon)
      as (resp' & Hget & Hv);
    rewrite E in Hget; eauto.
Qed.

Lemma MemStore_enforces_prev_exist :
  enforces_prev_exist MemStore.api MemStore.IsKeyNotFound.
Proof.
  intros key value opts s Hprev. cbn. unfold MemStore.get, MemStore.set.
  rewrite Hprev.
  destruct (negb (MemStore.online s)); [discriminate |].
  destruct (MemStore.blocked s key); [discriminate |].
  destruct (MemStore.entries s !! key); [discriminate |].
  intros _. eexists. reflexivity.
Qed.

Lemma MemStore_refreshes_directories : refreshes_directories MemStore.api.
Proof.
  intros key ttl s (resp & Hget & Hdir). revert Hget. cbn.
  unfold MemStore.get, MemStore.set. cbn [SetDir SetPrevExist TTL].
  destruct (MemStore.online s) eqn:Hon; cbn [negb]; [| discriminate].
  destruct (MemStore.blocked s key); [discriminate |].
  destruct (MemStore.entries s !! key) as [[v |] |] eqn:He; cbn [fst].
  - intros [= <-]. cbn in Hdir. rewrite He in Hdir. discriminate.
  - intros _.
    exists (mkResponse "update"
              (MemStore.subtree 0
                 (snd (MemStore.write key MemStore.Directory ttl "update" s)) key)
              (MemStore.index
                 (snd (MemStore.write key MemStore.Directory ttl "update" s)))),
           (snd (MemStore.write key MemStore.Directory ttl "update" s)).
    split; [reflexivity |].
    unfold expires_at. cbn [api_Get MemStore.api]. unfold MemStore.get.
    rewrite MemStore_write_unblocked.
    cbn [MemStore.write snd MemStore.online MemStore.entries MemStore.ttls
         MemStore.stamps MemStore.subtree].
    rewrite Hon, lookup_insert_eq. cbn [negb fst].
    eexists. split; [reflexivity |]. cbn [RNode Dir NodeTTL].
    split; [reflexivity |].
    unfold seconds. destruct (Z.ltb 0 ttl).
    + rewrite lookup_insert_eq. reflexivity.
    + rewrite lookup_delete_eq. reflexivity.
  - discriminate.
Qed.

Section Properties.
Context {S : Type}.
Variable api : KeysAPI S.
Variable IsKeyNotFound : error -> bool.

(** C1. [Get] of a key the store reports as not found returns the empty
    string and a nil error. *)
Theorem Get_absent_is_empty_success (key : string) (w : World S) :
  not_found IsKeyNotFound (fst (api_Get api key None (store w))) = true ->
  fst (Get api IsKeyNotFound key w) = ("", None).
Proof.
  intros H. unfold Get. run.
  destruct (fst (api_Get api key None (store w))) as [resp | err]; cbn in *.
  - discriminate.
  - rewrite H. reflexivity.
Qed.

(** C7. [Del] and [DelDir] turn the store's not-found error into
    success, and hand every other delete error to the caller. *)
Theorem Del_DelDir_suppress_not_found_only (key : string) (w : World S) :
  let plain := fst (api_Delete api key None (store w)) in
  let recursive :=
    fst (api_Delete api key (Some (mkDeleteOptions true true)) (store w)) in
  (not_found IsKeyNotFound plain = true ->
     fst (Del api IsKeyNotFound key w) = None) /\
  (not_found IsKeyNotFound recursive = true ->
     fst (DelDir api IsKeyNotFound key w) = None) /\
  (forall err, plain = inr err -> IsKeyNotFound err = false ->
     fst (Del api IsKeyNotFound key w) = Some err) /\
  (forall err, recursive = inr err -> IsKeyNotFound err = false ->
     fst (DelDir api IsKeyNotFound key w) = Some err).
Proof.
  cbv zeta. unfold Del, DelDir. run.
  repeat split.
  - destruct (fst (api_Delete api key None (store w))) as [resp | err];
      cbn; intros H; [reflexivity | rewrite H; reflexivity].
  - destruct (fst (api_Delete api key _ (store w))) as [resp | err];
      cbn; intros H; [reflexivity | rewrite H; reflexivity].
  - intros err -> H. rewrite H. reflexivity.
  - intros err -> H. rewrite H. reflexivity.
Qed.

(** C10. A read that returns an error returns the zero result with it:
    the empty string for [Get], the empty list for [Ls] and
    [LsRecursive]. *)
Theorem read_error_comes_with_zero_result (key : string) (w : World S) :
  (snd (fst (Get api IsKeyNotFound key w)) <> None ->
     fst (fst (Get api IsKeyNotFound key w)) = "") /\
  (snd (fst (Ls api IsKeyNotFound key w)) <> None ->
     fst (fst (Ls api IsKeyNotFound key w)) = []) /\
  (snd (fst (LsRecursive api IsKeyNotFound key w)) <> None ->
     fst (fst (LsRecursive api IsKeyNotFound key w)) = []).
Proof.
  unfold Get, Ls, LsRecursive. run.
  repeat split.
  - destruct (fst (api_Get api key None (store w))) as [resp | err]; cbn.
    + congruence.
    + destruct (IsKeyNotFound err); reflexivity.
  - destruct (fst (api_Get api key _ (store w))) as [resp | err]; cbn.
    + congruence.
    + destruct (IsKeyNotFound err); reflexivity.
  - destruct (fst (api_Get api key _ (store w))) as [resp | err]; cbn.
    + congruence.
    + destruct (IsKeyNotFound err); reflexivity.
Qed.

(** C6. On a store that reads back its writes, a [Get] after a
    successful [Set] of the key returns the value set, with a nil
    error. *)
Theorem Set_then_Get (key value : string) (w w' : World S) :
  reads_back_writes api ->
  Set_ api key value w = (None, w') ->
  fst (Get api IsKeyNotFound key w') = (value, None).
Proof.
  intros law. unfold Set_, Get. run.
  destruct (api_Set api key value None (store w)) as [r s'] eqn:E; cbn.
  destruct r as [resp | err]; cbn; intros [= <-]; cbn.
  destruct (law _ _ _ _ _ E) as (resp' & -> & <-). reflexivity.
Qed.

(** C8. [UpdateDirWithTTL] sends one write of the directory with the
    ttl that demands a previous node, returns the store's verdict and
    leaves the store as that write left it.  So on a store that refreshes
    directories it succeeds on a directory and leaves it with the ttl, in
    seconds, as its time to live; and on a store that enforces the demand
    it fails for a key that is not there.  [Set] sends its write with no
    options. *)
Theorem UpdateDirWithTTL_must_already_exist
    (key value : string) (ttl : Z) (w : World S) :
  let request := CallSet key "" (Some (mkSetOptions ttl true PrevExist)) in
  let r := fst (perform api request (store w)) in
  let after := snd (UpdateDirWithTTL api key ttl w) in
  extends (UpdateDirWithTTL api key ttl) w [Round request r] /\
  fst (UpdateDirWithTTL api key ttl w) = reply_error r /\
  store after = snd (perform api request (store w)) /\
  (refreshes_directories api ->
   is_dir_at api (store w) key ->
   fst (UpdateDirWithTTL api key ttl w) = None /\
   expires_at api (store after) key (seconds ttl)) /\
  (enforces_prev_exist api IsKeyNotFound ->
   not_found IsKeyNotFound (fst (api_Get api key None (store w))) = true ->
   exists err, fst (UpdateDirWithTTL api key ttl w) = Some err) /\
  extends (Set_ api key value) w
    [Round (CallSet key value None)
           (fst (api_Set api key value None (store w)))].
Proof.
  cbv zeta. unfold extends, UpdateDirWithTTL, Set_. run.
  split; [| split; [| split; [| split; [| split]]]].
  - destruct (fst (api_Set api key "" _ (store w))); reflexivity.
  - destruct (fst (api_Set api key "" _ (store w))); reflexivity.
  - destruct (fst (api_Set api key "" _ (store w))); reflexivity.
  - intros law Hdir.
    destruct (law key ttl (store w) Hdir) as (resp & s' & E & Hexp).
    rewrite E. cbn. split; [reflexivity | exact Hexp].
  - intros law H.
    destruct (law key "" (mkSetOptions ttl true PrevExist) (store w) eq_refl H)
      as [err ->].
    exists err. reflexivity.
  - destruct (fst (api_Set api key value None (store w))); reflexivity.
Qed.

(** C9, as the code has it. Every operation but [MkDir] and
    [WatchRecursive] sends exactly one request; [MkDir] sends its get,
    and a second request, the write, exactly when the store reports the
    key as not found. *)
Theorem one_request_except_MkDir (key value : string) (ttl : Z) (w : World S) :
  sends (Del api IsKeyNotFound key) w 1 /\
  sends (DelDir api IsKeyNotFound key) w 1 /\
  sends (Get api IsKeyNotFound key) w 1 /\
  sends (Set_ api key value) w 1 /\
  sends (UpdateDirWithTTL api key ttl) w 1 /\
  sends (Ls api IsKeyNotFound key) w 1 /\
  sends (LsRecursive api IsKeyNotFound key) w 1 /\
  sends (MkDir api IsKeyNotFound key) w
    (if not_found IsKeyNotFound (fst (api_Get api key None (store w)))
     then 2 else 1).
Proof.
  unfold sends, requests, Del, DelDir, Get, Set_, UpdateDirWithTTL, Ls,
    LsRecursive, MkDir.
  run.
  repeat split.
  8: {
    destruct (fst (api_Get api key None (store w))) as [resp | err];
      cbn [not_found].
    - destruct (negb (Dir (RNode resp)));
        cbn; rewrite List.filter_app, length_app; reflexivity.
    - destruct (IsKeyNotFound err); cbn [negb].
      + run. destruct (fst (api_Set api key "" _ _));
          cbn; rewrite !List.filter_app, !length_app; cbn; lia.
      + cbn. rewrite List.filter_app, length_app. reflexivity.
  }
  all: repeat match goal with
         | |- context [match ?r with inl _ => _ | inr _ => _ end] =>
             destruct r
         | |- context [if ?b then _ else _] => destruct b
         end.
  all: cbn [fst snd trace ret]; rewrite List.filter_app, length_app; reflexivity.
Qed.


(** C4. [LsRecursive] sends one get with [Sort] and [Recursive].  Where
    the store answers with a node tree, the result is, with a nil error,
    the depth-first pre-order of the children of the answered node: its
    keys are those of the descendants, each descendant's key is followed
    at once by the enumeration of its subtree, and if every level of the
    tree is sorted then the keys of every level are ascending and occur
    in that order.  Where the store reports not found, the result is the
    empty list and a nil error. *)
Theorem LsRecursive_preorder (directory : string) (w : World S) :
  let request := CallGet directory (Some (mkGetOptions true true)) in
  let r := fst (perform api request (store w)) in
  let result := fst (LsRecursive api IsKeyNotFound directory w) in
  extends (LsRecursive api IsKeyNotFound directory) w [Round request r] /\
  (forall resp, r = inl resp ->
     let top := Nodes (RNode resp) in
     snd result = None /\
     Preorder top (fst result) /\
     (forall keys, Preorder top keys -> keys = fst result) /\
     (forall key, In key (fst result) <->
                  exists node, Descendant top node /\ Key node = key) /\
     (forall node, Descendant top node ->
        exists before after,
          fst result =
            before ++ Key node :: nodesToStringSlice (Nodes node) ++ after) /\
     (levels_sorted top = true ->
      forall level, Level top level ->
        ascending (map Key level) = true /\
        sublist (map Key level) (fst result))) /\
  (not_found IsKeyNotFound r = true -> result = ([], None)).
Proof.
  cbv zeta. unfold extends, LsRecursive. run.
  split; [| split].
  - destruct (fst (api_Get api directory _ (store w))) as [resp | err];
      [| destruct (IsKeyNotFound err)]; reflexivity.
  - intros resp ->. cbn [fst snd ret].
    split; [reflexivity |].
    split; [apply nodesToStringSlice_Preorder |].
    split; [intros keys H; eapply Preorder_unique;
            [exact H | apply nodesToStringSlice_Preorder] |].
    split; [apply keys_are_descendants |].
    split; [apply Descendant_block |].
    intros Hs level Hl. exact (levels_stay_sorted _ _ Hs Hl).
  - destruct (fst (api_Get api directory _ (store w))) as [resp | err];
      cbn; intros H; [discriminate | rewrite H; reflexivity].
Qed.

(** The cursor of the loop, as the code keeps it.  It starts with 0;
    each wait is sent with the index reported with the last response
    delivered before it (0 if there is none); a delivered event goes to the
    callback at once; and a loop still running holds the cursor of its
    trace.  The cursor is taken from [Index] of the response, whatever the
    revision of the delivered event is. *)
Lemma WatchRecursive_waits_with_reported_index
    (code : Z) (fuel : nat) (directory : string) (w : World S) :
  let run := WatchRecursive api code fuel directory w in
  fst (WatchRecursive api code 0 directory w) = inl 0%N /\
  exists t,
    trace (snd run) = trace w ++ t /\
    (forall pre call r post,
       t = pre ++ Round call r :: post ->
       call = watch_call directory (cursor_at pre)) /\
    (forall pre call resp post,
       t = pre ++ Round call (inl resp) :: post ->
       exists post',
         post = Changed (Key (RNode resp)) (Value (RNode resp)) :: post' /\
         forall call' r' post'',
           post' = Round call' r' :: post'' ->
           call' = watch_call directory (Index resp)) /\
    (forall cursor, fst run = inl cursor -> cursor = cursor_at t).
Proof.
  cbv zeta. split; [reflexivity |].
  unfold WatchRecursive.
  destruct (loop_Watching api code directory fuel 0%N w) as (t & Ht & Hw).
  exists t. split; [exact Ht |].
  split; [| split].
  - intros pre call r post E.
    exact (Watching_waits_at_cursor _ _ _ _ _ Hw pre call r post E).
  - intros pre call resp post E.
    exact (Watching_event_then_callback _ _ _ _ _ Hw pre call resp post E).
  - intros cursor E. rewrite E in Hw.
    exact (Watching_holds_cursor _ _ _ _ _ Hw).
Qed.

End Properties.

(** ** The client on the in-memory store *)

Example Ls_sorted_children :
  fst (MemStore.Ls "/a" (MemStore.world MemStore.sample))
  = (["/a/b"; "/a/b-x"; "/a/d"], None).
Proof. vm_compute. reflexivity. Qed.

Example LsRecursive_in_preorder :
  fst (MemStore.LsRecursive "/a" (MemStore.world MemStore.sample))
  = (["/a/b"; "/a/b/c"; "/a/b-x"; "/a/d"], None).
Proof. vm_compute. reflexivity. Qed.

Example UpdateDirWithTTL_refreshes :
  MemStore.ttls
    (MemStore.after (MemStore.UpdateDirWithTTL "/a/b" 30000000000) MemStore.sample)
    !! "/a/b" = Some 30%Z.
Proof. vm_compute. reflexivity. Qed.

Lemma Get_absent_is_empty_success_witness :
  not_found MemStore.IsKeyNotFound
    (fst (api_Get MemStore.api "/a/z" None
            (store (MemStore.world MemStore.sample)))) = true /\
  fst (MemStore.Get "/a/z" (MemStore.world MemStore.sample)) = ("", None).
Proof.
  split.
  - vm_compute. reflexivity.
  - apply (Get_absent_is_empty_success MemStore.api MemStore.IsKeyNotFound).
    vm_compute. reflexivity.
Defined.

Lemma Del_DelDir_suppress_not_found_only_witness :
  fst (MemStore.Del "/a/z" (MemStore.world MemStore.sample)) = None /\
  fst (MemStore.DelDir "/z" (MemStore.world MemStore.sample)) = None /\
  fst (MemStore.Del "/a/d" (MemStore.world MemStore.unreachable))
    = Some MemStore.unavailable /\
  fst (MemStore.DelDir "/a" (MemStore.world MemStore.unreachable))
    = Some MemStore.unavailable.
Proof.
  split; [| split; [| split]].
  - apply (Del_DelDir_suppress_not_found_only MemStore.api
             MemStore.IsKeyNotFound "/a/z" (MemStore.world MemStore.sample)).
    vm_compute. reflexivity.
  - apply (Del_DelDir_suppress_not_found_only MemStore.api
             MemStore.IsKeyNotFound "/z" (MemStore.world MemStore.sample)).
    vm_compute. reflexivity.
  - apply (Del_DelDir_suppress_not_found_only MemStore.api
             MemStore.IsKeyNotFound "/a/d" (MemStore.world MemStore.unreachable)).
    + vm_compute. reflexivity.
    + vm_compute. reflexivity.
  - apply (Del_DelDir_suppress_not_found_only MemStore.api
             MemStore.IsKeyNotFound "/a" (MemStore.world MemStore.unreachable)).
    + vm_compute. reflexivity.
    + vm_compute. reflexivity.
Defined.

Lemma read_error_comes_with_zero_result_witness :
  snd (fst (MemStore.Get "/a/d" (MemStore.world MemStore.unreachable)))
    = Some MemStore.unavailable /\
  fst (fst (MemStore.Get "/a/d" (MemStore.world MemStore.unreachable))) = "" /\
  fst (fst (MemStore.Ls "/a" (MemStore.world MemStore.unreachable))) = [] /\
  fst (fst (MemStore.LsRecursive "/a" (MemStore.world MemStore.unreachable))) = [].
Proof.
  split; [vm_compute; reflexivity |].
  split; [| split].
  - apply (read_error_comes_with_zero_result MemStore.api
             MemStore.IsKeyNotFound "/a/d" (MemStore.world MemStore.unreachable)).
    vm_compute. discriminate.
  - apply (read_error_comes_with_zero_result MemStore.api
             MemStore.IsKeyNotFound "/a" (MemStore.world MemStore.unreachable)).
    vm_compute. discriminate.
  - apply (read_error_comes_with_zero_result MemStore.api
             MemStore.IsKeyNotFound "/a" (MemStore.world MemStore.unreachable)).
    vm_compute. discriminate.
Defined.

Lemma Set_then_Get_witness :
  MemStore.Set_ "/a/b-x" "new" (MemStore.world MemStore.sample)
    = (None, snd (MemStore.Set_ "/a/b-x" "new" (MemStore.world MemStore.sample))) /\
  fst (MemStore.Get "/a/b-x"
         (snd (MemStore.Set_ "/a/b-x" "new" (MemStore.world MemStore.sample))))
    = ("new", None).
Proof.
  split.
  - vm_compute. reflexivity.
  - apply (Set_then_Get MemStore.api MemStore.IsKeyNotFound "/a/b-x" "new"
             (MemStore.world MemStore.sample)).
    + exact MemStore_reads_back_writes.
    + vm_compute. reflexivity.
Defined.

Lemma UpdateDirWithTTL_must_already_exist_witness :
  let w := MemStore.world MemStore.sample in
  (is_dir_at MemStore.api MemStore.sample "/a/b" /\
   fst (MemStore.UpdateDirWithTTL "/a/b" 30000000000 w) = None /\
   expires_at MemStore.api
     (store (snd (MemStore.UpdateDirWithTTL "/a/b" 30000000000 w))) "/a/b" 30) /\
  (not_found MemStore.IsKeyNotFound
     (fst (api_Get MemStore.api "/tmp" None (store w))) = true /\
   exists err, fst (MemStore.UpdateDirWithTTL "/tmp" 30000000000 w) = Some err).
Proof.
  cbv zeta.
  assert (is_dir_at MemStore.api MemStore.sample "/a/b") as Hdir.
  { exists (mkResponse "get"
              (mkNode "/a/b" true "" [mkNode "/a/b/c" false "1" [] 1 0] 1 0) 3).
    vm_compute. auto. }
  destruct (UpdateDirWithTTL_must_already_exist MemStore.api
              MemStore.IsKeyNotFound "/a/b" "" 30000000000
              (MemStore.world MemStore.sample))
    as (_ & _ & _ & Hrefresh & _ & _).
  destruct (UpdateDirWithTTL_must_already_exist MemStore.api
              MemStore.IsKeyNotFound "/tmp" "" 30000000000
              (MemStore.world MemStore.sample))
    as (_ & _ & _ & _ & Habsent & _).
  split.
  - split; [exact Hdir |].
    exact (Hrefresh MemStore_refreshes_directories Hdir).
  - split; [vm_compute; reflexivity |].
    exact (Habsent MemStore_enforces_prev_exist eq_refl).
Defined.


Lemma LsRecursive_preorder_witness :
  let top :=
    [mkNode "/a/b" true "" [mkNode "/a/b/c" false "1" [] 1 0] 1 0;
     mkNode "/a/b-x" false "2" [] 2 0; mkNode "/a/d" false "3" [] 3 0] in
  let keys := fst (fst (MemStore.LsRecursive "/a" (MemStore.world MemStore.sample))) in
  fst (api_Get MemStore.api "/a" (Some (mkGetOptions true true)) MemStore.sample)
    = inl (mkResponse "get" (mkNode "/a" true "" top 1 0) 3) /\
  levels_sorted top = true /\
  Preorder top keys /\
  ascending (map Key top) = true /\
  sublist (map Key top) keys /\
  fst (MemStore.LsRecursive "/z" (MemStore.world MemStore.sample)) = ([], None).
Proof.
  cbv zeta.
  destruct (LsRecursive_preorder MemStore.api MemStore.IsKeyNotFound "/a"
              (MemStore.world MemStore.sample)) as (_ & Hok & _).
  destruct (Hok _ eq_refl) as (_ & Hpre & _ & _ & _ & Hsorted).
  destruct (Hsorted eq_refl _ (Level_top _)) as (Hasc & Hsub).
  destruct (LsRecursive_preorder MemStore.api MemStore.IsKeyNotFound "/z"
              (MemStore.world MemStore.sample)) as (_ & _ & Hnf).
  split; [reflexivity |].
  split; [reflexivity |].
  split; [exact Hpre |].
  split; [exact Hasc |].
  split; [exact Hsub | exact (Hnf eq_refl)].
Defined.

(** C9 as stated fails: [MkDir] of a path that is not there sends two
    requests, a get and a write. *)
Lemma MkDir_sends_two_requests :
  ~ sends (MemStore.MkDir "/tmp") (MemStore.world MemStore.sample) 1.
Proof. vm_compute. discriminate. Qed.

(** C2 at the input it fails on. The store delivers an event and then
    answers the next wait with the history-expired code in an error of the
    struct type, as the library hands its errors out: the loop does not
    wait again but returns that error, and the later event is never
    delivered. *)
Theorem WatchRecursive_returns_on_expired_history :
  let expired := ErrorValue MemStore.history_expired in
  let w :=
    MemStore.world
      (MemStore.watched
         [MemStore.change "/a/x" "v" 5; inr expired; MemStore.change "/a/y" "w" 9]) in
  Code MemStore.history_expired = MemStore.ErrorCodeEventIndexCleared /\
  forall fuel,
    MemStore.WatchRecursive (2 + fuel) "/a" w
    = (inr (Some expired),
       mkWorld (MemStore.watched [MemStore.change "/a/y" "w" 9])
         [Round (watch_call "/a" 0) (MemStore.change "/a/x" "v" 5);
          Changed "/a/x" "v";
          Round (watch_call "/a" 5) (inr expired)]).
Proof.
  cbv zeta. split; [reflexivity |].
  intros fuel. vm_compute. reflexivity.
Qed.

(** ** Further properties of the client *)

Lemma added_extends {S A} (m : M S A) (w : World S) (t : list Event) :
  trace (snd (m w)) = trace w ++ t -> added m w = t.
Proof. unfold added. intros ->. apply drop_app_length. Qed.

Lemma node_count_unfold (node : Node) :
  node_count node = Datatypes.S (forest_count (Nodes node)).
Proof. destruct node. reflexivity. Qed.

Lemma childless_keys (nodes : list Node) :
  Forall (fun node => Nodes node = []) nodes ->
  nodesToStringSlice nodes = map Key nodes.
Proof.
  induction 1 as [| node siblings Hnode _ IH]; [reflexivity |].
  rewrite nodesToStringSlice_cons, Hnode, IH. reflexivity.
Qed.

(** X1. [nodesToStringSlice] yields one key for each node of the tree,
    directories and leaves alike, at every depth. *)
Theorem nodesToStringSlice_one_key_per_node (nodes : list Node) :
  length (nodesToStringSlice nodes) = forest_count nodes.
Proof.
  induction nodes as [| node siblings IHbelow IHafter] using forest_ind.
  - reflexivity.
  - rewrite nodesToStringSlice_cons. cbn [length].
    rewrite length_app, IHbelow, IHafter.
    unfold forest_count at 3. cbn [map list_sum].
    rewrite node_count_unfold. reflexivity.
Qed.

Section MoreProperties.
Context {S : Type}.
Variable api : KeysAPI S.
Variable IsKeyNotFound : error -> bool.

(** X2. [Ls] sends one get with [Sort] and without [Recursive].  Where
    the answered children carry no children of their own, as a get that
    is not recursive answers, the result is the keys of the children in
    the order of the answer, with a nil error. *)
Theorem Ls_immediate_children (directory : string) (w : World S) (resp : Response) :
  let request := CallGet directory (Some (mkGetOptions true false)) in
  fst (perform api request (store w)) = inl resp ->
  Forall (fun node => Nodes node = []) (Nodes (RNode resp)) ->
  added (Ls api IsKeyNotFound directory) w = [Round request (inl resp)] /\
  fst (Ls api IsKeyNotFound directory w) = (map Key (Nodes (RNode resp)), None).
Proof.
  cbv zeta. cbn [perform]. intros E Hflat. split.
  - apply added_extends. unfold Ls. run. rewrite E. reflexivity.
  - unfold Ls. run. rewrite E. cbn. rewrite childless_keys by assumption.
    reflexivity.
Qed.

(** X3. Where the two gets answer with the same keys at the top and the
    children answered to [Ls] carry no children, every key [Ls] lists is
    listed by [LsRecursive], in the same order. *)
Theorem Ls_within_LsRecursive
    (directory : string) (w w' : World S) (flat deep : Response) :
  fst (api_Get api directory (Some (mkGetOptions true false)) (store w)) = inl flat ->
  fst (api_Get api directory (Some (mkGetOptions true true)) (store w')) = inl deep ->
  Forall (fun node => Nodes node = []) (Nodes (RNode flat)) ->
  map Key (Nodes (RNode flat)) = map Key (Nodes (RNode deep)) ->
  sublist (fst (fst (Ls api IsKeyNotFound directory w)))
          (fst (fst (LsRecursive api IsKeyNotFound directory w'))).
Proof.
  intros Eflat Edeep Hflat Hkeys. unfold Ls, LsRecursive. run.
  rewrite Eflat, Edeep. cbn.
  rewrite (childless_keys _ Hflat), Hkeys. apply level_keys_in_order.
Qed.

(** X4. On a store whose gets are read-only, [Get], [Ls] and
    [LsRecursive] leave the store as it was, and each sends nothing but
    a get. *)
Theorem reads_leave_the_store (key : string) (w : World S) :
  get_is_read_only api ->
  (store (snd (Get api IsKeyNotFound key w)) = store w /\
   forallb is_get (added (Get api IsKeyNotFound key) w) = true) /\
  (store (snd (Ls api IsKeyNotFound key w)) = store w /\
   forallb is_get (added (Ls api IsKeyNotFound key) w) = true) /\
  (store (snd (LsRecursive api IsKeyNotFound key w)) = store w /\
   forallb is_get (added (LsRecursive api IsKeyNotFound key) w) = true).
Proof.
  intros pure.
  split; [| split].
  - split.
    + unfold Get. run.
      destruct (fst (api_Get api key None (store w))) as [r | err];
        [| destruct (IsKeyNotFound err)]; cbn; apply pure.
    + rewrite (added_extends _ _
                 [Round (CallGet key None)
                        (fst (api_Get api key None (store w)))]);
        [reflexivity |].
      unfold Get. run.
      destruct (fst (api_Get api key None (store w))) as [r | err];
        [| destruct (IsKeyNotFound err)]; reflexivity.
  - split.
    + unfold Ls. run.
      destruct (fst (api_Get api key _ (store w))) as [r | err];
        [| destruct (IsKeyNotFound err)]; cbn; apply pure.
    + rewrite (added_extends _ _
                 [Round (CallGet key (Some (mkGetOptions true false)))
                        (fst (api_Get api key (Some (mkGetOptions true false)) (store w)))]);
        [reflexivity |].
      unfold Ls. run.
      destruct (fst (api_Get api key _ (store w))) as [r | err];
        [| destruct (IsKeyNotFound err)]; reflexivity.
  - split.
    + unfold LsRecursive. run.
      destruct (fst (api_Get api key _ (store w))) as [r | err];
        [| destruct (IsKeyNotFound err)]; cbn; apply pure.
    + rewrite (added_extends _ _
                 [Round (CallGet key (Some (mkGetOptions true true)))
                        (fst (api_Get api key (Some (mkGetOptions true true)) (store w)))]);
        [reflexivity |].
      unfold LsRecursive. run.
      destruct (fst (api_Get api key _ (store w))) as [r | err];
        [| destruct (IsKeyNotFound err)]; reflexivity.
Qed.

(** X5. [Get], [Ls] and [LsRecursive] return a nil error exactly when the
    store's get succeeded or reported not found; any other error of the
    store is returned as it came. *)
Theorem read_errors_verbatim (key : string) (w : World S) :
  let plain := fst (api_Get api key None (store w)) in
  let flat := fst (api_Get api key (Some (mkGetOptions true false)) (store w)) in
  let deep := fst (api_Get api key (Some (mkGetOptions true true)) (store w)) in
  snd (fst (Get api IsKeyNotFound key w))
    = (if not_found IsKeyNotFound plain then None else reply_error plain) /\
  snd (fst (Ls api IsKeyNotFound key w))
    = (if not_found IsKeyNotFound flat then None else reply_error flat) /\
  snd (fst (LsRecursive api IsKeyNotFound key w))
    = (if not_found IsKeyNotFound deep then None else reply_error deep).
Proof.
  cbv zeta. unfold Get, Ls, LsRecursive. run.
  repeat split.
  all: match goal with |- context [api_Get _ ?k ?o (store ?v)] =>
         destruct (fst (api_Get api k o (store v))) as [r | err] end.
  all: cbn; try reflexivity.
  all: destruct (IsKeyNotFound err); reflexivity.
Qed.

(** X6. [MkDir] writes only where the store reported the path as not
    found.  Otherwise its get is all it sends, and an error of that get
    is returned as it came; where it does write, the verdict of the write
    is returned as it came. *)
Theorem MkDir_writes_only_when_absent (directory : string) (w : World S) :
  let get := CallGet directory None in
  let set := CallSet directory "" (Some (mkSetOptions 0 true PrevIgnore)) in
  let r := fst (perform api get (store w)) in
  let s := snd (perform api get (store w)) in
  (not_found IsKeyNotFound r = false ->
     added (MkDir api IsKeyNotFound directory) w = [Round get r] /\
     store (snd (MkDir api IsKeyNotFound directory w)) = s /\
     forall err, r = inr err ->
       fst (MkDir api IsKeyNotFound directory w) = Some err) /\
  (not_found IsKeyNotFound r = true ->
     added (MkDir api IsKeyNotFound directory) w
       = [Round get r; Round set (fst (perform api set s))] /\
     fst (MkDir api IsKeyNotFound directory w)
       = reply_error (fst (perform api set s))).
Proof.
  cbv zeta. cbn [perform]. split; intros Hnf.
  - destruct (fst (api_Get api directory None (store w))) as [resp | err] eqn:E;
      cbn in Hnf.
    + repeat split.
      * apply added_extends. unfold MkDir. run. rewrite E.
        destruct (negb (Dir (RNode resp))); reflexivity.
      * unfold MkDir. run. rewrite E.
        destruct (negb (Dir (RNode resp))); reflexivity.
      * discriminate.
    + repeat split.
      * apply added_extends. unfold MkDir. run. rewrite E, Hnf. reflexivity.
      * unfold MkDir. run. rewrite E, Hnf. reflexivity.
      * intros err' [= <-]. unfold MkDir. run. rewrite E, Hnf. reflexivity.
  - destruct (fst (api_Get api directory None (store w))) as [resp | err] eqn:E;
      cbn in Hnf; [discriminate |].
    split.
    + apply added_extends. unfold MkDir. run. rewrite E, Hnf. cbn [negb]. run.
      destruct (fst (api_Set api directory "" _ _));
        cbn; rewrite <- app_assoc; reflexivity.
    + unfold MkDir. run. rewrite E, Hnf. cbn [negb]. run.
      destruct (fst (api_Set api directory "" _ _)); reflexivity.
Qed.

(** X7. Where the store reports the path as not found and its gets are
    read-only, [MkDir] returns what the earlier [MkDir], the bare write,
    returns, and leaves the same store. *)
Theorem MkDir_agrees_with_earlier (directory : string) (w : World S) :
  get_is_read_only api ->
  not_found IsKeyNotFound (fst (api_Get api directory None (store w))) = true ->
  fst (MkDir api IsKeyNotFound directory w) = fst (MkDir_earlier api directory w) /\
  store (snd (MkDir api IsKeyNotFound directory w))
    = store (snd (MkDir_earlier api directory w)).
Proof.
  intros pure Hnf. unfold MkDir, MkDir_earlier. run.
  destruct (fst (api_Get api directory None (store w))) as [resp | err];
    cbn in Hnf; [discriminate |].
  rewrite Hnf. cbn [negb]. run. rewrite pure.
  destruct (fst (api_Set api directory "" _ (store w))); split; reflexivity.
Qed.

End MoreProperties.

Section MoreWatching.
Context {S : Type}.
Variable api : KeysAPI S.
Variable ErrorCodeEventIndexCleared : Z.
Variable directory : string.

Lemma Watching_callback_per_event cursor t out :
  Watching ErrorCodeEventIndexCleared directory cursor t out ->
  omap callback_of t = omap event_of t.
Proof.
  induction 1 as [cursor | cursor resp t out _ IH | cursor err t out Hi _ IH
                 | cursor err Hi]; cbn; congruence.
Qed.

Lemma Watching_stops_at_error cursor t out :
  Watching ErrorCodeEventIndexCleared directory cursor t out ->
  forall pre call err post,
    t = pre ++ Round call (inr err) :: post ->
    shouldIgnoreError ErrorCodeEventIndexCleared err = false ->
    post = [] /\ out = inr (Some err).
Proof.
  induction 1 as [cursor | cursor resp t out _ IH | cursor err t out Hi _ IH
                 | cursor err Hi]; intros pre call err' post E Hno.
  - destruct pre; discriminate.
  - destruct pre as [| e pre]; cbn in E; [discriminate |].
    injection E as _ E. destruct pre as [| e' pre]; cbn in E; [discriminate |].
    injection E as _ E. eauto.
  - destruct pre as [| e pre]; cbn in E.
    + injection E as _ <- _. congruence.
    + injection E as _ E. eauto.
  - destruct pre as [| e pre]; cbn in E.
    + injection E as _ <- <-. auto.
    + injection E as _ E. destruct pre; discriminate.
Qed.

Lemma loop_added (fuel : nat) (cursor : N) (w : World S) :
  Watching ErrorCodeEventIndexCleared directory cursor
    (added (WatchRecursive_loop api ErrorCodeEventIndexCleared fuel directory cursor) w)
    (fst (WatchRecursive_loop api ErrorCodeEventIndexCleared fuel directory cursor w)).
Proof.
  destruct (loop_Watching api ErrorCodeEventIndexCleared directory fuel cursor w)
    as (t & Ht & Hw).
  rewrite (added_extends _ _ _ Ht). exact Hw.
Qed.

(** X8. The callback is invoked once for each event the watch delivered,
    in the order of delivery, with the key and the value of the event's
    node; it is invoked for nothing else. *)
Theorem WatchRecursive_callback_per_event (fuel : nat) (w : World S) :
  omap callback_of
    (added (WatchRecursive api ErrorCodeEventIndexCleared fuel directory) w)
  = omap event_of
      (added (WatchRecursive api ErrorCodeEventIndexCleared fuel directory) w).
Proof.
  unfold WatchRecursive.
  exact (Watching_callback_per_event _ _ _ (loop_added fuel 0%N w)).
Qed.

(** X9. An error of the store that [shouldIgnoreError] does not ignore
    ends the loop on the spot: it is the last thing in the trace, no
    further wait and no callback follow, and it is the value returned. *)
Theorem WatchRecursive_stops_at_error
    (fuel : nat) (w : World S) pre call err post :
  added (WatchRecursive api ErrorCodeEventIndexCleared fuel directory) w
    = pre ++ Round call (inr err) :: post ->
  shouldIgnoreError ErrorCodeEventIndexCleared err = false ->
  post = [] /\
  fst (WatchRecursive api ErrorCodeEventIndexCleared fuel directory w)
    = inr (Some err).
Proof.
  unfold WatchRecursive. intros E Hno.
  exact (Watching_stops_at_error _ _ _ (loop_added fuel 0%N w) _ _ _ _ E Hno).
Qed.

End MoreWatching.

Section Deleting.
Context {S : Type}.
Variable api : KeysAPI S.
Variable IsKeyNotFound : error -> bool.

Lemma Get_where_not_found (key : string) (w : World S) :
  not_found IsKeyNotFound (fst (api_Get api key None (store w))) = true ->
  fst (Get api IsKeyNotFound key w) = ("", None).
Proof.
  unfold Get. run.
  destruct (fst (api_Get api key None (store w))) as [resp | err]; cbn.
  - discriminate.
  - intros ->. reflexivity.
Qed.

(** X11. On a store where a deleted key is reported as not found, and
    where a delete that reports not found changes nothing and agrees with
    a get: after [Del] or [DelDir] returned nil, [Get] of the key returns
    the empty string and nil. *)
Theorem Get_after_delete (key : string) (w : World S) :
  deletes_for_good api IsKeyNotFound ->
  not_found_agrees api IsKeyNotFound ->
  (fst (Del api IsKeyNotFound key w) = None ->
   fst (Get api IsKeyNotFound key (snd (Del api IsKeyNotFound key w))) = ("", None)) /\
  (fst (DelDir api IsKeyNotFound key w) = None ->
   fst (Get api IsKeyNotFound key (snd (DelDir api IsKeyNotFound key w))) = ("", None)).
Proof.
  intros gone agrees.
  assert (forall opts,
    let r := fst (api_Delete api key opts (store w)) in
    let s' := snd (api_Delete api key opts (store w)) in
    (exists resp, r = inl resp) \/ not_found IsKeyNotFound r = true ->
    not_found IsKeyNotFound (fst (api_Get api key None s')) = true) as H.
  { intros opts. cbv zeta.
    destruct (api_Delete api key opts (store w)) as [r s'] eqn:E. cbn [fst snd].
    intros [[resp ->] | Hnf].
    - exact (gone _ _ _ _ _ E).
    - destruct (agrees key opts (store w)) as [Hs Hg];
        rewrite E in *; cbn [fst snd] in *; [assumption |].
      subst s'. assumption. }
  split.
  - unfold Del at 1 2. run. intros Hnil.
    apply Get_where_not_found.
    destruct (fst (api_Delete api key None (store w))) as [resp | err] eqn:E.
    + cbn [store]. apply H. rewrite E. eauto.
    + destruct (IsKeyNotFound err) eqn:Hn; cbn in Hnil; [| discriminate].
      cbn [store]. apply H. rewrite E. right. exact Hn.
  - unfold DelDir at 1 2. run. intros Hnil.
    apply Get_where_not_found.
    destruct (fst (api_Delete api key _ (store w))) as [resp | err] eqn:E.
    + cbn [store]. apply H. rewrite E. eauto.
    + destruct (IsKeyNotFound err) eqn:Hn; cbn in Hnil; [| discriminate].
      cbn [store]. apply H. rewrite E. right. exact Hn.
Qed.

End Deleting.

(** *** The in-memory store obeys the delete laws *)

Lemma MemStore_get_removed (key : string) (s : MemStore.t) :
  MemStore.online s = true ->
  MemStore.blocked s key = false ->
  not_found MemStore.IsKeyNotFound
    (fst (MemStore.get key None (snd (MemStore.remove key s)))) = true.
Proof.
  intros Hon Hfree. unfold MemStore.get.
  assert (MemStore.blocked (snd (MemStore.remove key s)) key = false) as ->.
  { apply not_true_is_false. intros H. unfold MemStore.blocked in H.
    apply existsb_exists in H as (a & Hin & Hf).
    cbn [MemStore.remove snd MemStore.entries] in Hf.
    destruct (filter _ (delete key (MemStore.entries s)) !! a)
      as [[v |] |] eqn:E; try discriminate.
    apply map_lookup_filter_Some in E as [E _].
    apply lookup_delete_Some in E as [_ E].
    assert (MemStore.blocked s key = true) as Hb; [| congruence].
    unfold MemStore.blocked. apply existsb_exists.
    exists a. rewrite E. auto. }
  cbn [MemStore.remove snd MemStore.online MemStore.entries]. rewrite Hon.
  cbn [negb].
  assert (filter (fun p : string * MemStore.Entry =>
                    negb (MemStore.beneath key (fst p)) = true)
                 (delete key (MemStore.entries s)) !! key = None) as ->.
  { apply map_lookup_filter_None. left. apply lookup_delete_eq. }
  reflexivity.
Qed.

Lemma MemStore_deletes_for_good :
  deletes_for_good MemStore.api MemStore.IsKeyNotFound.
Proof.
  intros key opts s resp s'. cbn. unfold MemStore.delete_.
  destruct (MemStore.online s) eqn:Hon; cbn [negb]; [| discriminate].
  destruct (MemStore.blocked s key) eqn:Hfree; [discriminate |].
  destruct (MemStore.entries s !! key) as [[v |] |]; try discriminate.
  - intros E. pose proof (MemStore_get_removed key s Hon Hfree) as H.
    rewrite E in H. exact H.
  - destruct (negb _); [discriminate |].
    destruct (_ && _); [discriminate |].
    intros E. pose proof (MemStore_get_removed key s Hon Hfree) as H.
    rewrite E in H. exact H.
Qed.

Lemma MemStore_not_found_agrees :
  not_found_agrees MemStore.api MemStore.IsKeyNotFound.
Proof.
  intros key opts s. cbn. unfold MemStore.delete_, MemStore.get.
  destruct (MemStore.online s); cbn [negb]; [| discriminate].
  destruct (MemStore.blocked s key); [discriminate |].
  destruct (MemStore.entries s !! key) as [[v |] |].
  - discriminate.
  - destruct (negb _); [discriminate |].
    destruct (_ && _); discriminate.
  - intros _. split; reflexivity.
Qed.

(** *** The further properties on the in-memory store *)

Lemma Ls_immediate_children_witness :
  fst (MemStore.Ls "/a" (MemStore.world MemStore.sample))
    = (["/a/b"; "/a/b-x"; "/a/d"], None) /\
  added (MemStore.Ls "/a") (MemStore.world MemStore.sample)
    = [Round (CallGet "/a" (Some (mkGetOptions true false)))
         (inl (mkResponse "get"
                 (mkNode "/a" true ""
                    [mkNode "/a/b" true "" [] 1 0; mkNode "/a/b-x" false "2" [] 2 0;
                     mkNode "/a/d" false "3" [] 3 0] 1 0) 3))].
Proof.
  destruct (Ls_immediate_children MemStore.api MemStore.IsKeyNotFound "/a"
              (MemStore.world MemStore.sample)
              (mkResponse "get"
                 (mkNode "/a" true ""
                    [mkNode "/a/b" true "" [] 1 0; mkNode "/a/b-x" false "2" [] 2 0;
                     mkNode "/a/d" false "3" [] 3 0] 1 0) 3))
    as [Hadded Hresult].
  - vm_compute. reflexivity.
  - repeat constructor.
  - split; [exact Hresult | exact Hadded].
Defined.

Lemma Ls_within_LsRecursive_witness :
  sublist (fst (fst (MemStore.Ls "/a" (MemStore.world MemStore.sample))))
          (fst (fst (MemStore.LsRecursive "/a" (MemStore.world MemStore.sample)))).
Proof.
  apply (Ls_within_LsRecursive MemStore.api MemStore.IsKeyNotFound "/a"
           (MemStore.world MemStore.sample) (MemStore.world MemStore.sample)
           (mkResponse "get"
              (mkNode "/a" true ""
                 [mkNode "/a/b" true "" [] 1 0; mkNode "/a/b-x" false "2" [] 2 0;
                  mkNode "/a/d" false "3" [] 3 0] 1 0) 3)
           (mkResponse "get"
              (mkNode "/a" true ""
                 [mkNode "/a/b" true "" [mkNode "/a/b/c" false "1" [] 1 0] 1 0;
                  mkNode "/a/b-x" false "2" [] 2 0; mkNode "/a/d" false "3" [] 3 0] 1 0) 3)).
  - vm_compute. reflexivity.
  - vm_compute. reflexivity.
  - repeat constructor.
  - reflexivity.
Defined.

Lemma reads_leave_the_store_witness :
  store (snd (MemStore.Get "/a/d" (MemStore.world MemStore.sample)))
    = MemStore.sample /\
  store (snd (MemStore.Ls "/a" (MemStore.world MemStore.sample)))
    = MemStore.sample /\
  store (snd (MemStore.LsRecursive "/a" (MemStore.world MemStore.sample)))
    = MemStore.sample.
Proof.
  destruct (reads_leave_the_store MemStore.api MemStore.IsKeyNotFound "/a/d"
              (MemStore.world MemStore.sample) MemStore_get_read_only)
    as ((G & _) & _ & _).
  destruct (reads_leave_the_store MemStore.api MemStore.IsKeyNotFound "/a"
              (MemStore.world MemStore.sample) MemStore_get_read_only)
    as (_ & (L & _) & (R & _)).
  split; [exact G | split; [exact L | exact R]].
Defined.

Lemma MkDir_writes_only_when_absent_witness :
  added (MemStore.MkDir "/a/d") (MemStore.world MemStore.sample)
    = [Round (CallGet "/a/d" None)
         (inl (mkResponse "get" (mkNode "/a/d" false "3" [] 3 0) 3))] /\
  fst (MemStore.MkDir "/a" (MemStore.world MemStore.unreachable))
    = Some MemStore.unavailable /\
  length (added (MemStore.MkDir "/tmp") (MemStore.world MemStore.sample)) = 2%nat.
Proof.
  destruct (MkDir_writes_only_when_absent MemStore.api MemStore.IsKeyNotFound
              "/a/d" (MemStore.world MemStore.sample)) as [Hfound _].
  destruct (Hfound eq_refl) as (Hleaf & _ & _).
  destruct (MkDir_writes_only_when_absent MemStore.api MemStore.IsKeyNotFound
              "/a" (MemStore.world MemStore.unreachable)) as [Hfails _].
  destruct (Hfails eq_refl) as (_ & _ & Herr).
  destruct (MkDir_writes_only_when_absent MemStore.api MemStore.IsKeyNotFound
              "/tmp" (MemStore.world MemStore.sample)) as [_ Habsent].
  destruct (Habsent eq_refl) as (Hboth & _).
  split; [exact Hleaf |].
  split; [exact (Herr _ eq_refl) |].
  change MemStore.MkDir with (MkDir MemStore.api MemStore.IsKeyNotFound).
  rewrite Hboth. reflexivity.
Defined.

Lemma MkDir_agrees_with_earlier_witness :
  fst (MemStore.MkDir "/tmp" (MemStore.world MemStore.sample))
    = fst (MkDir_earlier MemStore.api "/tmp" (MemStore.world MemStore.sample)) /\
  store (snd (MemStore.MkDir "/tmp" (MemStore.world MemStore.sample)))
    = store (snd (MkDir_earlier MemStore.api "/tmp" (MemStore.world MemStore.sample))).
Proof.
  apply (MkDir_agrees_with_earlier MemStore.api MemStore.IsKeyNotFound "/tmp"
           (MemStore.world MemStore.sample) MemStore_get_read_only).
  vm_compute. reflexivity.
Defined.

Lemma WatchRecursive_stops_at_error_witness :
  fst (MemStore.WatchRecursive 5 "/a"
         (MemStore.world
            (MemStore.watched
               [MemStore.change "/a/x" "v" 5; MemStore.change "/a/y" "w" 9])))
  = inr (Some MemStore.closed).
Proof.
  apply (WatchRecursive_stops_at_error MemStore.api
           MemStore.ErrorCodeEventIndexCleared "/a" 5
           (MemStore.world
              (MemStore.watched
                 [MemStore.change "/a/x" "v" 5; MemStore.change "/a/y" "w" 9]))
           [Round (watch_call "/a" 0) (MemStore.change "/a/x" "v" 5);
            Changed "/a/x" "v";
            Round (watch_call "/a" 5) (MemStore.change "/a/y" "w" 9);
            Changed "/a/y" "w"]
           (watch_call "/a" 9) MemStore.closed []).
  - vm_compute. reflexivity.
  - reflexivity.
Defined.

Lemma WatchRecursive_returns_only_errors_witness :
  exists err cursor,
    Some MemStore.closed = Some err /\
    shouldIgnoreError MemStore.ErrorCodeEventIndexCleared err = false /\
    last (trace (snd (MemStore.WatchRecursive 3 "/a"
                        (MemStore.world
                           (MemStore.watched
                              [MemStore.change "/a/x" "v" 5;
                               MemStore.change "/a/y" "w" 9])))))
      = Some (Round (watch_call "/a" cursor) (inr err)).
Proof.
  apply (WatchRecursive_returns_only_errors MemStore.api
           MemStore.ErrorCodeEventIndexCleared "/a" 3
           (MemStore.world
              (MemStore.watched
                 [MemStore.change "/a/x" "v" 5; MemStore.change "/a/y" "w" 9]))
           (Some MemStore.closed)).
  vm_compute. reflexivity.
Defined.

Lemma Get_after_delete_witness :
  fst (MemStore.Get "/a/d"
         (snd (MemStore.Del "/a/d" (MemStore.world MemStore.sample))))
    = ("", None) /\
  fst (MemStore.Get "/a"
         (snd (MemStore.DelDir "/a" (MemStore.world MemStore.sample))))
    = ("", None) /\
  fst (MemStore.Get "/z"
         (snd (MemStore.Del "/z" (MemStore.world MemStore.sample))))
    = ("", None).
Proof.
  split; [| split].
  - apply (Get_after_delete MemStore.api MemStore.IsKeyNotFound "/a/d"
             (MemStore.world MemStore.sample)
             MemStore_deletes_for_good MemStore_not_found_agrees).
    vm_compute. reflexivity.
  - apply (Get_after_delete MemStore.api MemStore.IsKeyNotFound "/a"
             (MemStore.world MemStore.sample)
             MemStore_deletes_for_good MemStore_not_found_agrees).
    vm_compute. reflexivity.
  - apply (Get_after_delete MemStore.api MemStore.IsKeyNotFound "/z"
             (MemStore.world MemStore.sample)
             MemStore_deletes_for_good MemStore_not_found_agrees).
    vm_compute. reflexivity.
Defined.

Section KeepsWatching.
Context {S : Type}.
Variable api : KeysAPI S.
Variable ErrorCodeEventIndexCleared : Z.
Variable directory : string.

(** The trace holds no error but ones [shouldIgnoreError] ignores. *)
Lemma Watching_keeps_running cursor t out :
  Watching ErrorCodeEventIndexCleared directory cursor t out ->
  (forall call err, In (Round call (inr err)) t ->
     shouldIgnoreError ErrorCodeEventIndexCleared err = true) ->
  out = inl (cursor_from cursor t).
Proof.
  intros Hw Hall. destruct out as [cursor' | r].
  - f_equal. exact (Watching_holds_cursor _ _ _ _ _ Hw).
  - destruct (Watching_returns_error _ _ _ _ _ Hw) as (err & c & _ & Hno & Hl).
    apply last_Some in Hl as [pre ->].
    rewrite (Hall (watch_call directory c) err) in Hno; [discriminate |].
    apply in_or_app. right. left. reflexivity.
Qed.

Lemma loop_one_wait_per_round (fuel : nat) (cursor : N) (w : World S) cursor' :
  fst (WatchRecursive_loop api ErrorCodeEventIndexCleared fuel directory cursor w)
    = inl cursor' ->
  requests (trace (snd (WatchRecursive_loop api ErrorCodeEventIndexCleared
                          fuel directory cursor w)))
    = (requests (trace w) + fuel)%nat.
Proof.
  revert cursor w. induction fuel as [| fuel IH]; intros cursor w.
  - cbn. lia.
  - cbn [WatchRecursive_loop]. run.
    destruct (fst (api_Next api directory _ (store w))) as [resp | err].
    + unfold onChange. cbn [fst snd store trace]. intros E.
      rewrite (IH _ _ E). cbn [trace]. unfold requests.
      rewrite !List.filter_app, !length_app. cbn. lia.
    + destruct (shouldIgnoreError ErrorCodeEventIndexCleared err).
      * intros E. rewrite (IH _ _ E). cbn [trace]. unfold requests.
        rewrite !List.filter_app, !length_app. cbn. lia.
      * cbn. discriminate.
Qed.

(** X12. As long as the store answers with events and with errors that
    [shouldIgnoreError] ignores, the loop does not return: after any
    number of rounds it is still waiting, with the index reported with the
    last delivered response as its cursor (0 if there is none), and it has
    sent one wait in each round. *)
Theorem WatchRecursive_keeps_watching (fuel : nat) (w : World S) :
  (forall call err,
     In (Round call (inr err))
        (added (WatchRecursive api ErrorCodeEventIndexCleared fuel directory) w) ->
     shouldIgnoreError ErrorCodeEventIndexCleared err = true) ->
  fst (WatchRecursive api ErrorCodeEventIndexCleared fuel directory w)
    = inl (cursor_at
             (added (WatchRecursive api ErrorCodeEventIndexCleared fuel directory) w)) /\
  sends (WatchRecursive api ErrorCodeEventIndexCleared fuel directory) w fuel.
Proof.
  intros Hall. unfold WatchRecursive in *.
  pose proof (Watching_keeps_running _ _ _
                (loop_added api ErrorCodeEventIndexCleared directory fuel 0%N w)
                Hall) as E.
  split; [exact E |].
  exact (loop_one_wait_per_round fuel 0%N w _ E).
Qed.

End KeepsWatching.

Lemma WatchRecursive_keeps_watching_witness :
  let w :=
    MemStore.world
      (MemStore.watched
         [MemStore.answer "/a/x" "v" 175 174;
          MemStore.answer "/a/x" "v" 175 175;
          MemStore.answer "/a/y" "w" 176 175]) in
  fst (MemStore.WatchRecursive 3 "/a" w) = inl 175%N /\
  requests (trace (snd (MemStore.WatchRecursive 3 "/a" w))) = 3%nat.
Proof.
  cbv zeta.
  destruct (WatchRecursive_keeps_watching MemStore.api
              MemStore.ErrorCodeEventIndexCleared "/a" 3
              (MemStore.world
                 (MemStore.watched
                    [MemStore.answer "/a/x" "v" 175 174;
                     MemStore.answer "/a/x" "v" 175 175;
                     MemStore.answer "/a/y" "w" 176 175])))
    as [Hrun Hsent].
  - intros call err Hin. vm_compute in Hin.
    destruct Hin as [H | [H | [H | [H | [H | [H | []]]]]]]; discriminate.
  - split; [exact Hrun | exact Hsent].
Defined.

(** C3 at the input it fails on.  The store stands at index 174 when the
    first wait begins, and the change of [/a/x] at revision 175 ends that
    wait: the response carries [Index] 174 and a node of [ModifiedIndex]
    175.  The loop takes 174 for its cursor, not the revision 175 of the
    event it delivered; so the next wait asks for what came after 174, is
    answered with the same event, and the callback runs for it a second
    time. *)
Theorem WatchRecursive_replays_delivered_event :
  let first := MemStore.answer "/a/x" "v" 175 174 in
  let again := MemStore.answer "/a/x" "v" 175 175 in
  let run :=
    MemStore.WatchRecursive 2 "/a"
      (MemStore.world (MemStore.watched [first; again])) in
  trace (snd run)
    = [Round (watch_call "/a" 0) first; Changed "/a/x" "v";
       Round (watch_call "/a" 174) again; Changed "/a/x" "v"] /\
  delivered (trace (snd run)) = [175%N; 175%N] /\
  fst run = inl 175%N.
Proof. cbv zeta. vm_compute. auto. Qed.
